(** * Checkpoint synchronisation of the Neptune logger

    A shallow embedding of [NeptuneLogger.after_save_checkpoint] and of the
    helpers it calls ([_construct_path_with_prefix], [_get_full_model_name],
    [_get_full_model_names_from_exp_structure], [_dict_paths]) from
    [src/pytorch_lightning/loggers/neptune.py], together with a model of the
    remote run they talk to, and the properties of the synchronisation. *)

From Stdlib Require Import String Ascii List Bool Arith Lia.
From Stdlib Require QArith.QArith_base.
From stdpp Require Import base option list gmap strings sets.

Local Open Scope string_scope.
Local Open Scope list_scope.
Local Open Scope stdpp_scope.

#[local] Set Warnings "-clear-no-such-hyp".

(** ** Python strings *)

Module PyStr.

(** [s.startswith(p)] *)
Fixpoint startswith (s p : string) {struct p} : bool :=
  match p with
  | EmptyString => true
  | String c p' =>
      match s with
      | EmptyString => false
      | String d s' => if Ascii.eqb c d then startswith s' p' else false
      end
  end.

(** [s[n:]] *)
Fixpoint slice_from (n : nat) (s : string) : string :=
  match n with
  | O => s
  | S n' => match s with
            | EmptyString => EmptyString
            | String _ s' => slice_from n' s'
            end
  end.

(** The truth value of a string in a condition: false for the empty string only. *)
Definition truthy (s : string) : bool :=
  match s with EmptyString => false | String _ _ => true end.

Definition slash : ascii := "/"%char.

(** [s.split(LOGGER_JOIN_CHAR)]: never the empty list, the empty string gives one empty segment. *)
Fixpoint split (s : string) : list string :=
  match s with
  | EmptyString => [EmptyString]
  | String c s' =>
      if Ascii.eqb c slash then EmptyString :: split s'
      else match split s' with
           | k :: ks => String c k :: ks
           | [] => [String c EmptyString]
           end
  end.

(** [LOGGER_JOIN_CHAR.join(ks)] *)
Fixpoint join (ks : list string) : string :=
  match ks with
  | [] => EmptyString
  | [k] => k
  | k :: ks' => k +:+ "/" +:+ join ks'
  end.

(** A path segment: a string without the join character. *)
Fixpoint slash_free (s : string) : bool :=
  match s with
  | EmptyString => true
  | String c s' => negb (Ascii.eqb c slash) && slash_free s'
  end.

End PyStr.

(** ** The collaborators' data *)

(** Checkpoint scores are opaque to the synchronisation, which only passes
    them on; they are carried as rationals. *)
Abbreviation score := QArith_base.Q.

(** The fields of [ModelCheckpoint] that [after_save_checkpoint] reads.
    [best_k_models] is a Python dict from path to score, kept in insertion
    order; an absent [last_model_path] or [best_model_path] is the empty
    string, an absent [best_model_score] is [None]. *)
Record ModelCheckpoint := {
  dirpath : string;
  last_model_path : string;
  best_k_models : list (string * score);
  best_model_path : string;
  best_model_score : option score;
}.

(** The fields of [NeptuneLogger] that the checkpoint hook reads. *)
Record NeptuneLogger := {
  _log_model_checkpoints : bool;
  _prefix : string;
}.

Definition LOGGER_JOIN_CHAR : string := "/".

(** [_construct_path_with_prefix], called with the list of its positional keys. *)
Definition _construct_path_with_prefix (self : NeptuneLogger) (keys : list string) : string :=
  if PyStr.truthy (_prefix self) then PyStr.join (_prefix self :: keys)
  else PyStr.join keys.

(** ** Exceptions *)

(** What a remote operation can fail with: the client finds the run's tree
    inconsistent with the request, or the transport fails with some code. *)
Inductive store_error :=
| MetadataInconsistency
| Fault (code : nat).

Inductive exn :=
| ValueError (msg : string)
| KeyError (key : string)
| TypeError
| AttributeError
| StoreError (e : store_error).

Inductive result (A : Type) :=
| Ok (a : A)
| Raise (e : exn).
Arguments Ok {A} a.
Arguments Raise {A} e.

(** [_get_full_model_name(model_path, checkpoint_callback)] *)
Definition _get_full_model_name (model_path : string) (checkpoint_callback : ModelCheckpoint)
  : result string :=
  let expected_model_path := dirpath checkpoint_callback +:+ "/" in
  if negb (PyStr.startswith model_path expected_model_path) then
    Raise (ValueError (model_path +:+ " was expected to start with " +:+ expected_model_path +:+ "."))
  else Ok (PyStr.slice_from (String.length expected_model_path) model_path).

(** ** The remote run

    The Neptune client is an external collaborator. Its run is a tree
    addressed by slash-joined path segments: interior nodes are namespaces
    (Python dicts), leaves are attributes. *)

Inductive attr :=
| FileAttr (local_path : string)
| StringAttr (s : string)
| FloatAttr (x : score).

(** A value of the structure is an attribute or a namespace; a namespace is
    a Python dict, the sequence of its items in insertion order. *)
Inductive value :=
| Attr (a : attr)
| Dict (d : dict)
with dict :=
| DNil
| DItem (k : string) (v : value) (d : dict).

Scheme value_dict_ind := Induction for value Sort Prop
  with dict_value_ind := Induction for dict Sort Prop.

(** Python dicts: unique keys, kept in insertion order. *)
Module PyDict.

(** [d.get(k)], [None] when [k not in d] *)
Fixpoint get (k : string) (d : dict) : option value :=
  match d with
  | DNil => None
  | DItem k' v d' => if String.eqb k k' then Some v else get k d'
  end.

(** [d[k] = v]: in place when the key is there, appended when it is new. *)
Fixpoint setitem (k : string) (v : value) (d : dict) : dict :=
  match d with
  | DNil => DItem k v DNil
  | DItem k' v' d' =>
      if String.eqb k k' then DItem k' v d' else DItem k' v' (setitem k v d')
  end.

(** [del d[k]] for a key that is there; nothing to remove otherwise. *)
Fixpoint delitem (k : string) (d : dict) : dict :=
  match d with
  | DNil => DNil
  | DItem k' v' d' =>
      if String.eqb k k' then d' else DItem k' v' (delitem k d')
  end.

(** [list(d.keys())] *)
Fixpoint keys (d : dict) : list string :=
  match d with
  | DNil => []
  | DItem k _ d' => k :: keys d'
  end.

End PyDict.

(** Modelled from the spec: the remote tree store of section 6 (existence
    check, structure enumeration, upload and assignment as idempotent
    overwrite, delete), which is the Neptune client and not part of this
    repository. A path is split at the join character into the segments that
    address the tree. Writing creates the namespaces on the way and refuses
    to go through an attribute or to replace a namespace; deleting removes
    one attribute and the namespaces it leaves empty, and refuses anything
    else. A refusal is [None]. *)
Module Store.

(** The node at a segment path, if any. *)
Fixpoint lookup_path (ks : list string) (v : value) : option value :=
  match ks with
  | [] => Some v
  | k :: ks' =>
      match v with
      | Attr _ => None
      | Dict d =>
          match PyDict.get k d with
          | Some v' => lookup_path ks' v'
          | None => None
          end
      end
  end.

Fixpoint set_path (ks : list string) (a : attr) (d : dict) : option dict :=
  match ks with
  | [] => None
  | [k] =>
      match PyDict.get k d with
      | Some (Dict _) => None
      | _ => Some (PyDict.setitem k (Attr a) d)
      end
  | k :: ks' =>
      match PyDict.get k d with
      | Some (Attr _) => None
      | Some (Dict sub) =>
          match set_path ks' a sub with
          | Some sub' => Some (PyDict.setitem k (Dict sub') d)
          | None => None
          end
      | None =>
          match set_path ks' a DNil with
          | Some sub' => Some (PyDict.setitem k (Dict sub') d)
          | None => None
          end
      end
  end.

Fixpoint pop_path (ks : list string) (d : dict) : option dict :=
  match ks with
  | [] => None
  | [k] =>
      match PyDict.get k d with
      | Some (Attr _) => Some (PyDict.delitem k d)
      | _ => None
      end
  | k :: ks' =>
      match PyDict.get k d with
      | Some (Dict sub) =>
          match pop_path ks' sub with
          | Some DNil => Some (PyDict.delitem k d)
          | Some sub' => Some (PyDict.setitem k (Dict sub') d)
          | None => None
          end
      | _ => None
      end
  end.

(** The operations the logger performs on the run. *)
Inductive op :=
| Upload (path : string) (local_path : string)
| Assign (path : string) (a : attr)
| Delete (path : string)
| Exists (path : string)
| GetStructure.

Inductive outcome :=
| Done
| Failed (e : store_error).

(** The effect of an operation on the tree, when the client accepts it. *)
Definition effect (o : op) (d : dict) : option dict :=
  match o with
  | Upload path local_path => set_path (PyStr.split path) (FileAttr local_path) d
  | Assign path a => set_path (PyStr.split path) a d
  | Delete path => pop_path (PyStr.split path) d
  | Exists _ => Some d
  | GetStructure => Some d
  end.

(** The run: its tree, the operations performed on it so far with their
    outcomes, and what the transport will do to the coming operations
    ([Some code] fails the operation with that code; past the end of the
    list nothing fails). *)
Record run := {
  structure : dict;
  calls : list (op * outcome);
  faults : list (option nat);
}.

End Store.

(** ** Computations on the run that may raise *)

Definition M (A : Type) : Type := Store.run -> result A * Store.run.

#[export] Instance M_ret : MRet M := fun A a s => (Ok a, s).

#[export] Instance M_bind : MBind M := fun A B f m s =>
  match m s with
  | (Ok a, s') => f a s'
  | (Raise e, s') => (Raise e, s')
  end.

Definition lift {A} (r : result A) : M A := fun s => (r, s).

Definition gets {A} (f : Store.run -> A) : M A := fun s => (Ok (f s), s).

(** [for x in xs: body(x)] *)
Fixpoint for_each {A} (xs : list A) (body : A -> M unit) : M unit :=
  match xs with
  | [] => mret tt
  | x :: xs' => body x ;; for_each xs' body
  end.

(** One operation on the run: the transport may fail it, the client may
    refuse it, otherwise it takes effect; either way it is recorded. *)
Definition perform (o : Store.op) : M unit := fun s =>
  let rest := tail (Store.faults s) in
  match head (Store.faults s) with
  | Some (Some code) =>
      (Raise (StoreError (Fault code)),
       {| Store.structure := Store.structure s;
          Store.calls := Store.calls s ++ [(o, Store.Failed (Fault code))];
          Store.faults := rest |})
  | _ =>
      match Store.effect o (Store.structure s) with
      | Some d' =>
          (Ok tt,
           {| Store.structure := d';
              Store.calls := Store.calls s ++ [(o, Store.Done)];
              Store.faults := rest |})
      | None =>
          (Raise (StoreError MetadataInconsistency),
           {| Store.structure := Store.structure s;
              Store.calls := Store.calls s ++ [(o, Store.Failed MetadataInconsistency)];
              Store.faults := rest |})
      end
  end.

(** [self.experiment] is the run: the rank-zero wrapper of the property is
    defined outside this file, and the hook is read on the logging process.

    [self.experiment[path].upload(local_path)] *)
Definition upload (path local_path : string) : M unit := perform (Store.Upload path local_path).

(** [self.experiment[path] = a] *)
Definition assign (path : string) (a : attr) : M unit := perform (Store.Assign path a).

(** [del self.experiment[path]] *)
Definition delete (path : string) : M unit := perform (Store.Delete path).

(** [self.experiment.exists(path)] *)
Definition exists_ (path : string) : M bool :=
  perform (Store.Exists path) ;;
  gets (fun s => bool_decide (is_Some (Store.lookup_path (PyStr.split path) (Dict (Store.structure s))))).

(** [self.experiment.get_structure()] *)
Definition get_structure : M value :=
  perform Store.GetStructure ;;
  gets (fun s => Dict (Store.structure s)).

(** ** The logger's helpers over the run's structure *)

(** [_dict_paths(d, path_in_build)]: the generator, as the list of what it
    yields, in order. *)
Fixpoint _dict_paths (d : dict) (path_in_build : option string) : list string :=
  match d with
  | DNil => []
  | DItem k v d' =>
      let path :=
        match path_in_build with
        | Some p => p +:+ "/" +:+ k
        | None => k
        end in
      match v with
      | Attr _ => [path]
      | Dict sub => _dict_paths sub (Some path)
      end ++ _dict_paths d' path_in_build
  end.

(** [d[k]] on a value of the structure: a namespace is a dict, an attribute
    is not subscriptable. *)
Definition getitem (d : value) (k : string) : result value :=
  match d with
  | Dict d' =>
      match PyDict.get k d' with
      | Some v => Ok v
      | None => Raise (KeyError k)
      end
  | Attr _ => Raise TypeError
  end.

(** [reduce(lambda d, k: d[k], [d0, *ks])] *)
Fixpoint reduce_getitem (d0 : value) (ks : list string) : result value :=
  match ks with
  | [] => Ok d0
  | k :: ks' =>
      match getitem d0 k with
      | Ok v => reduce_getitem v ks'
      | Raise e => Raise e
      end
  end.

(** [_get_full_model_names_from_exp_structure(exp_structure, namespace)];
    an attribute has no [items]. *)
Definition _get_full_model_names_from_exp_structure (exp_structure : value) (namespace : string)
  : result (gset string) :=
  let structure_keys := PyStr.split namespace in
  match reduce_getitem exp_structure structure_keys with
  | Ok (Dict uploaded_models_dict) => Ok (list_to_set (_dict_paths uploaded_models_dict None))
  | Ok (Attr _) => Raise AttributeError
  | Raise e => Raise e
  end.

(** The truth value of [best_model_score]: [None] and a zero tensor are false. *)
Definition score_truthy (x : option score) : bool :=
  match x with
  | Some q => negb (Z.eqb (QArith_base.Qnum q) 0)
  | None => false
  end.

(** ** The checkpoint hook *)

(** The first block of [after_save_checkpoint]: save the last model. *)
Definition save_last (self : NeptuneLogger) (checkpoint_callback : ModelCheckpoint)
    (checkpoints_namespace : string) (file_names : gset string) : M (gset string) :=
  if PyStr.truthy (last_model_path checkpoint_callback) then
    model_last_name ← lift (_get_full_model_name (last_model_path checkpoint_callback) checkpoint_callback);
    let file_names := file_names ∪ {[ model_last_name ]} in
    upload (checkpoints_namespace +:+ "/" +:+ model_last_name) (last_model_path checkpoint_callback) ;;
    mret file_names
  else mret file_names.

(** The second block: the loop over [best_k_models.keys()]. *)
Fixpoint save_best_k (checkpoint_callback : ModelCheckpoint) (checkpoints_namespace : string)
    (keys : list string) (file_names : gset string) : M (gset string) :=
  match keys with
  | [] => mret file_names
  | key :: keys' =>
      model_name ← lift (_get_full_model_name key checkpoint_callback);
      let file_names := file_names ∪ {[ model_name ]} in
      upload (checkpoints_namespace +:+ "/" +:+ model_name) key ;;
      save_best_k checkpoint_callback checkpoints_namespace keys' file_names
  end.

(** The third block: remove the models that are no longer wanted. *)
Definition drop_old (checkpoints_namespace : string) (file_names : gset string) : M unit :=
  b ← exists_ checkpoints_namespace;
  if b : bool then
    exp_structure ← get_structure;
    uploaded_model_names ← lift (_get_full_model_names_from_exp_structure exp_structure checkpoints_namespace);
    for_each (elements (uploaded_model_names ∖ file_names))
      (fun file_to_drop => delete (checkpoints_namespace +:+ "/" +:+ file_to_drop))
  else mret tt.

(** The last block: log the best model path and the best model score. *)
Definition log_best (self : NeptuneLogger) (checkpoint_callback : ModelCheckpoint) : M unit :=
  (if PyStr.truthy (best_model_path checkpoint_callback) then
     assign (_construct_path_with_prefix self ["model/best_model_path"])
       (StringAttr (best_model_path checkpoint_callback))
   else mret tt) ;;
  match best_model_score checkpoint_callback with
  | Some x =>
      if score_truthy (Some x) then
        assign (_construct_path_with_prefix self ["model/best_model_score"]) (FloatAttr x)
      else mret tt
  | None => mret tt
  end.

(** [after_save_checkpoint(self, checkpoint_callback)] *)
Definition after_save_checkpoint (self : NeptuneLogger) (checkpoint_callback : ModelCheckpoint)
  : M unit :=
  if negb (_log_model_checkpoints self) then mret tt
  else
    let file_names : gset string := ∅ in
    let checkpoints_namespace := _construct_path_with_prefix self ["model/checkpoints"] in
    file_names ← save_last self checkpoint_callback checkpoints_namespace file_names;
    file_names ← save_best_k checkpoint_callback checkpoints_namespace
                   (map fst (best_k_models checkpoint_callback)) file_names;
    drop_old checkpoints_namespace file_names ;;
    log_best self checkpoint_callback.

(** ** What the statements observe *)

(** The invariant of the run's structure: at every level the keys are
    distinct (it is a Python dict) and are path segments (the client splits
    every path at the join character). *)
Fixpoint wf_value (v : value) : bool :=
  match v with
  | Attr _ => true
  | Dict d => wf_dict d
  end
with wf_dict (d : dict) : bool :=
  match d with
  | DNil => true
  | DItem k v d' =>
      PyStr.slash_free k
      && match PyDict.get k d' with None => true | Some _ => false end
      && wf_value v && wf_dict d'
  end.

Definition is_attr (o : option value) : bool :=
  match o with
  | Some (Attr _) => true
  | _ => false
  end.

(** [name] is a leaf under [namespace]: the path [namespace/name] holds an
    attribute. *)
Definition remote_leaf (d : dict) (namespace name : string) : bool :=
  is_attr (Store.lookup_path (PyStr.split (namespace +:+ "/" +:+ name)) (Dict d)).

(** The namespace of the checkpoints of a logger. *)
Definition checkpoints_namespace (self : NeptuneLogger) : string :=
  _construct_path_with_prefix self ["model/checkpoints"].

(** The checkpoint paths a call is handed: the last checkpoint when there is
    one, then the keys of the best-k mapping. *)
Definition supplied_paths (cb : ModelCheckpoint) : list string :=
  (if PyStr.truthy (last_model_path cb) then [last_model_path cb] else [])
  ++ map fst (best_k_models cb).

(** A path is valid when it starts with the checkpoint directory and the
    separator. *)
Definition valid_path (cb : ModelCheckpoint) (p : string) : bool :=
  PyStr.startswith p (dirpath cb +:+ "/").

(** The short name of a path: the path without the directory and separator. *)
Definition short_name (cb : ModelCheckpoint) (p : string) : string :=
  PyStr.slice_from (String.length (dirpath cb +:+ "/")) p.

(** The desired set of short names. *)
Definition desired_names (cb : ModelCheckpoint) : gset string :=
  list_to_set (map (short_name cb) (supplied_paths cb)).

(** The upload of one supplied path, as the run records it when it succeeds. *)
Definition upload_of (self : NeptuneLogger) (cb : ModelCheckpoint) (p : string) : Store.op :=
  Store.Upload (checkpoints_namespace self +:+ "/" +:+ short_name cb p) p.

(** The tree after a recorded sequence of operations: the successful ones
    take effect in order, the failed ones leave the tree as it is. *)
Definition apply_call (d : dict) (c : Store.op * Store.outcome) : dict :=
  match c with
  | (o, Store.Done) => default d (Store.effect o d)
  | (_, Store.Failed _) => d
  end.

Definition replay (cs : list (Store.op * Store.outcome)) (d : dict) : dict :=
  fold_left apply_call cs d.

Definition is_done (c : Store.op * Store.outcome) : bool :=
  match c with
  | (_, Store.Done) => true
  | (_, Store.Failed _) => false
  end.

(** The path the generator builds for the key path [ks] below
    [path_in_build]. *)
Definition build_path (path_in_build : option string) (ks : list string) : string :=
  match path_in_build with
  | Some p => p +:+ "/" +:+ PyStr.join ks
  | None => PyStr.join ks
  end.

(** What the generator is to yield on a well-formed dict: the built paths
    of the key paths that lead to an attribute, and each of them once. *)
Definition enumerates (d : dict) : Prop :=
  wf_dict d = true ->
  forall (pb : option string) (x : string),
    x ∈ _dict_paths d pb <->
    exists ks, ks <> [] /\ x = build_path pb ks
               /\ is_attr (Store.lookup_path ks (Dict d)) = true.

Definition yields_once (d : dict) : Prop :=
  wf_dict d = true -> forall pb, NoDup (_dict_paths d pb).

(** What the last block of the hook records on the run when it succeeds. *)
Definition best_model_calls (self : NeptuneLogger) (cb : ModelCheckpoint)
  : list (Store.op * Store.outcome) :=
  (if PyStr.truthy (best_model_path cb) then
     [(Store.Assign (_construct_path_with_prefix self ["model/best_model_path"])
         (StringAttr (best_model_path cb)), Store.Done)]
   else [])
  ++ match best_model_score cb with
     | Some x =>
         if score_truthy (Some x) then
           [(Store.Assign (_construct_path_with_prefix self ["model/best_model_score"])
               (FloatAttr x), Store.Done)]
         else []
     | None => []
     end.

(** The segments of the logger's prefix, none when it has no prefix. *)
Definition prefix_keys (self : NeptuneLogger) : list string :=
  if PyStr.truthy (_prefix self) then PyStr.split (_prefix self) else [].

Definition is_upload (c : Store.op * Store.outcome) : bool :=
  match c with
  | (Store.Upload _ _, _) => true
  | _ => false
  end.

(** The message of the [ValueError] of [_get_full_model_name]. *)
Definition invalid_path_message (cb : ModelCheckpoint) (p : string) : string :=
  p +:+ " was expected to start with " +:+ (dirpath cb +:+ "/") +:+ ".".

(** How a step from [s] to [s'] with result [r] treats the failures of the
    run: the tree of [s'] is the tree of [s] after the operations recorded in
    between; a store error is the result exactly when the last of them
    failed with it, the ones before having succeeded; with any other
    result they all succeeded. *)
Definition propagates {A} (s : Store.run) (r : result A) (s' : Store.run) : Prop :=
  exists evs,
    Store.calls s' = Store.calls s ++ evs
    /\ Store.structure s' = replay evs (Store.structure s)
    /\ match r with
       | Raise (StoreError e) =>
           exists evs0 o, evs = evs0 ++ [(o, Store.Failed e)]
                          /\ forallb is_done evs0 = true
       | _ => forallb is_done evs = true
       end.

Definition propagating {A} (m : M A) : Prop :=
  forall s, propagates s (m s).1 (m s).2.

Definition not_store_error {A} (r : result A) : Prop :=
  match r with
  | Raise (StoreError _) => False
  | _ => True
  end.

(** ** Concrete loggers, callbacks and runs *)

Definition logger_on : NeptuneLogger :=
  {| _log_model_checkpoints := true; _prefix := "training" |}.

Definition logger_off : NeptuneLogger :=
  {| _log_model_checkpoints := false; _prefix := "training" |}.

(** Scenario A of the specification: the last checkpoint is also one of the
    two best. *)
Definition scenario_A : ModelCheckpoint :=
  {| dirpath := "/ckpt";
     last_model_path := "/ckpt/e5.pt";
     best_k_models := [("/ckpt/e3.pt", QArith_base.Qmake 9 10);
                       ("/ckpt/e5.pt", QArith_base.Qmake 95 100)];
     best_model_path := "/ckpt/e5.pt";
     best_model_score := Some (QArith_base.Qmake 95 100) |}.

(** Scenario B: the best are e3 and e4, there is no last checkpoint. *)
Definition scenario_B : ModelCheckpoint :=
  {| dirpath := "/ckpt";
     last_model_path := "";
     best_k_models := [("/ckpt/e3.pt", QArith_base.Qmake 9 10);
                       ("/ckpt/e4.pt", QArith_base.Qmake 95 100)];
     best_model_path := "/ckpt/e4.pt";
     best_model_score := Some (QArith_base.Qmake 95 100) |}.

(** Scenario C: nothing is kept. *)
Definition scenario_C : ModelCheckpoint :=
  {| dirpath := "/ckpt";
     last_model_path := "";
     best_k_models := [];
     best_model_path := "";
     best_model_score := None |}.

(** A valid last checkpoint and a best-k key outside the directory. *)
Definition stray_key : ModelCheckpoint :=
  {| dirpath := "/ckpt";
     last_model_path := "/ckpt/e5.pt";
     best_k_models := [("/other/e3.pt", QArith_base.Qmake 9 10)];
     best_model_path := "";
     best_model_score := None |}.

Definition fresh_run : Store.run :=
  {| Store.structure := DNil; Store.calls := []; Store.faults := [] |}.

(** A run that holds e1, e2 and e3 under the checkpoints namespace. *)
Definition run_e1_e2_e3 : Store.run :=
  {| Store.structure :=
       DItem "training"
         (Dict (DItem "model"
            (Dict (DItem "checkpoints"
               (Dict (DItem "e1.pt" (Attr (FileAttr "/ckpt/e1.pt"))
                     (DItem "e2.pt" (Attr (FileAttr "/ckpt/e2.pt"))
                     (DItem "e3.pt" (Attr (FileAttr "/ckpt/e3.pt")) DNil))))
               DNil))
            DNil))
         DNil;
     Store.calls := [];
     Store.faults := [] |}.

(** The same run on a transport that fails the fourth operation to come. *)
Definition run_failing_fourth : Store.run :=
  {| Store.structure := Store.structure run_e1_e2_e3;
     Store.calls := [];
     Store.faults := [None; None; None; Some 503] |}.

(** The paths the last block of the hook assigns to. *)
Definition best_model_paths (self : NeptuneLogger) (cb : ModelCheckpoint) : list string :=
  (if PyStr.truthy (best_model_path cb) then
     [_construct_path_with_prefix self ["model/best_model_path"]]
   else [])
  ++ (if score_truthy (best_model_score cb) then
        [_construct_path_with_prefix self ["model/best_model_score"]]
      else []).

(** A run on which the transport fails none of the operations to come. *)
Definition quiet (s : Store.run) : Prop :=
  Forall (fun f => f = None) (Store.faults s).

(** A run whose checkpoints namespace is an attribute, as after
    [run["training/model/checkpoints"] = "x"]. *)
Definition run_namespace_is_attribute : Store.run :=
  {| Store.structure :=
       DItem "training"
         (Dict (DItem "model"
            (Dict (DItem "checkpoints" (Attr (StringAttr "x")) DNil))
            DNil))
         DNil;
     Store.calls := [];
     Store.faults := [] |}.

(** ** Further observations on the run *)

(** The attribute at a key path, if the path leads to one. *)
Definition attr_at (p : list string) (d : dict) : option attr :=
  match Store.lookup_path p (Dict d) with
  | Some (Attr a) => Some a
  | _ => None
  end.

(** The number of attributes of a structure. *)
Fixpoint count_attrs_value (v : value) : nat :=
  match v with
  | Attr _ => 1
  | Dict d => count_attrs d
  end
with count_attrs (d : dict) : nat :=
  match d with
  | DNil => 0
  | DItem _ v d' => count_attrs_value v + count_attrs d'
  end.

(** What a recorded operation does to the key path [p]: [Some (Some a)]
    when it writes [a] there, [Some None] when it deletes what is there,
    [None] when it does not address [p] or has failed. *)
Definition touch (p : list string) (c : Store.op * Store.outcome) : option (option attr) :=
  match c with
  | (Store.Upload path local_path, Store.Done) =>
      if bool_decide (PyStr.split path = p) then Some (Some (FileAttr local_path)) else None
  | (Store.Assign path a, Store.Done) =>
      if bool_decide (PyStr.split path = p) then Some (Some a) else None
  | (Store.Delete path, Store.Done) =>
      if bool_decide (PyStr.split path = p) then Some None else None
  | _ => None
  end.

(** The last of the recorded operations that touches [p] decides. *)
Fixpoint last_touch (p : list string) (evs : list (Store.op * Store.outcome))
  : option (option attr) :=
  match evs with
  | [] => None
  | c :: evs' =>
      match last_touch p evs' with
      | Some r => Some r
      | None => touch p c
      end
  end.

(** The tree after a recorded sequence of operations each of whose
    successful operations was accepted by the client; [None] when one of
    them would have been refused. *)
Fixpoint replay_strict (evs : list (Store.op * Store.outcome)) (d : dict) : option dict :=
  match evs with
  | [] => Some d
  | (o, Store.Done) :: evs' =>
      match Store.effect o d with
      | Some d' => replay_strict evs' d'
      | None => None
      end
  | (_, Store.Failed _) :: evs' => replay_strict evs' d
  end.

(** A computation all of whose operations satisfy [T], whatever its result. *)
Definition traced (T : Store.op -> Prop) {A} (m : M A) : Prop :=
  forall s, exists evs,
    Store.calls (m s).2 = Store.calls s ++ evs
    /\ replay_strict evs (Store.structure s) = Some (Store.structure (m s).2)
    /\ Forall (fun c => T c.1) evs.

(** The operations of the checkpoint hook of a logger for a callback:
    uploads and deletes below the checkpoints namespace, the existence check
    of the namespace, the enumeration, and the two best-model assignments. *)
Definition hook_op (self : NeptuneLogger) (cb : ModelCheckpoint) (o : Store.op) : Prop :=
  match o with
  | Store.Upload path _ => exists name, path = checkpoints_namespace self +:+ "/" +:+ name
  | Store.Delete path => exists name, path = checkpoints_namespace self +:+ "/" +:+ name
  | Store.Assign path _ => path ∈ best_model_paths self cb
  | Store.Exists path => path = checkpoints_namespace self
  | Store.GetStructure => True
  end.


(** ** The constructor's argument check *)

Definition _LEGACY_NEPTUNE_INIT_KWARGS : list string :=
  ["project_name"; "offline_mode"; "experiment_name"; "experiment_id"; "params";
   "properties"; "upload_source_files"; "abort_callback"; "logger"; "upload_stdout";
   "upload_stderr"; "send_hardware_metrics"; "run_monitoring_thread";
   "handle_uncaught_exceptions"; "git_info"; "hostname"; "notebook_id"; "notebook_path"].

Definition _LEGACY_NEPTUNE_LOGGER_KWARGS : list string :=
  ["base_namespace"; "close_after_fit"].

(** What is passed as [run]: an instance of the client's [Run], or some
    other object. *)
Inductive run_argument :=
| RunInstance
| OtherObject.

Definition nl : string := String (Ascii.ascii_of_nat 10) EmptyString.

(** [", ".join(ks)] *)
Fixpoint join_comma (ks : list string) : string :=
  match ks with
  | [] => EmptyString
  | [k] => k
  | k :: ks' => k +:+ ", " +:+ join_comma ks'
  end.

(** The text of a list of keyword names in an f-string: the names are
    those of the two lists above, so each is printed between single quotes
    as it is. *)
Definition repr_names (ks : list string) : string :=
  "[" +:+ join_comma (map (fun k => "'" +:+ k +:+ "'") ks) +:+ "]".

Definition legacy_advice : string :=
  "If you are looking for the Neptune logger using legacy Python API,"
  +:+ " it's still available as part of neptune-contrib package:" +:+ nl
  +:+ "  - https://docs-legacy.neptune.ai/integrations/pytorch_lightning.html" +:+ nl
  +:+ "The NeptuneLogger was re-written to use the neptune.new Python API" +:+ nl
  +:+ "  - https://neptune.ai/blog/neptune-new" +:+ nl
  +:+ "  - https://docs.neptune.ai/integrations-and-supported-tools/model-training/pytorch-lightning"
  +:+ nl.

Definition deprecated_kwargs_message (used : list string) : string :=
  "Following kwargs are deprecated: " +:+ repr_names used +:+ "." +:+ nl
  +:+ legacy_advice
  +:+ "You should use arguments accepted by either NeptuneLogger.init() or neptune.init()".

Definition run_type_message : string :=
  "Run parameter expected to be of type `neptune.new.Run`." +:+ nl +:+ legacy_advice.

Definition redundant_arguments_message : string :=
  "When an already initialized run object is provided"
  +:+ " you can't provide other neptune.init() parameters." +:+ nl.

(** [k in ks] *)
Definition py_in (k : string) (ks : list string) : bool :=
  existsb (String.eqb k) ks.

Definition is_some {A} (x : option A) : bool :=
  match x with Some _ => true | None => false end.

Definition nonempty {A} (l : list A) : bool :=
  match l with [] => false | _ :: _ => true end.

(** [_verify_input_arguments(api_key, project, name, run, neptune_run_kwargs)];
    of the keyword arguments only the names matter, in the order of the call. *)
Definition _verify_input_arguments (api_key project name : option string)
    (run : option run_argument) (neptune_run_kwargs : list string) : result unit :=
  let used_legacy_kwargs :=
    List.filter (fun legacy_kwarg => py_in legacy_kwarg _LEGACY_NEPTUNE_INIT_KWARGS)
      neptune_run_kwargs in
  if nonempty used_legacy_kwargs then
    Raise (ValueError (deprecated_kwargs_message used_legacy_kwargs))
  else
    let used_legacy_neptune_kwargs :=
      List.filter (fun legacy_kwarg => py_in legacy_kwarg _LEGACY_NEPTUNE_LOGGER_KWARGS)
        neptune_run_kwargs in
    if nonempty used_legacy_neptune_kwargs then
      Raise (ValueError (deprecated_kwargs_message used_legacy_neptune_kwargs))
    else
      if is_some run && negb (match run with Some RunInstance => true | _ => false end) then
        Raise (ValueError run_type_message)
      else
        let any_neptune_init_arg_passed :=
          existsb is_some [api_key; project; name] || nonempty neptune_run_kwargs in
        if is_some run && any_neptune_init_arg_passed then
          Raise (ValueError redundant_arguments_message)
        else Ok tt.

(** ** The end of the run *)

(** [finalize(self, status)] on the logging process; the base class's
    [finalize], which the method calls last, is outside this file and does
    not address the run. *)
Definition finalize (self : NeptuneLogger) (status : string) : M unit :=
  if PyStr.truthy status then
    assign (_construct_path_with_prefix self ["status"]) (StringAttr status)
  else mret tt.

(** ** More concrete runs and callbacks *)

(** A run that holds a checkpoint, a hyperparameter and the run's name. *)
Definition run_with_other_data : Store.run :=
  {| Store.structure :=
       DItem "training"
         (Dict (DItem "model"
                  (Dict (DItem "checkpoints"
                           (Dict (DItem "e1.pt" (Attr (FileAttr "/ckpt/e1.pt")) DNil))
                        (DItem "best_model_path" (Attr (StringAttr "/ckpt/e1.pt")) DNil)))
               (DItem "hyperparams"
                  (Dict (DItem "lr" (Attr (FloatAttr (QArith_base.Qmake 7 100))) DNil))
                DNil)))
         (DItem "sys" (Dict (DItem "name" (Attr (StringAttr "run-1")) DNil)) DNil);
     Store.calls := [];
     Store.faults := [] |}.

(** The same run on a transport that fails the second operation to come. *)
Definition run_failing_second : Store.run :=
  {| Store.structure := Store.structure run_with_other_data;
     Store.calls := [];
     Store.faults := [None; Some 500] |}.

(** A best score of zero. *)
Definition zero_score : ModelCheckpoint :=
  {| dirpath := "/ckpt";
     last_model_path := "";
     best_k_models := [("/ckpt/e3.pt", QArith_base.Qmake 0 1)];
     best_model_path := "";
     best_model_score := Some (QArith_base.Qmake 0 1) |}.

(** A checkpoint directory written with a trailing separator. *)
Definition trailing_separator : ModelCheckpoint :=
  {| dirpath := "/ckpt/";
     last_model_path := "/ckpt/e5.pt";
     best_k_models := [];
     best_model_path := "";
     best_model_score := None |}.

(** * Properties *)

(** ** Facts about the string operations *)

Module PyStrFacts.
Import PyStr.
#[local] Arguments String.append !_ _ / : simpl nomatch.

Lemma startswith_app (p r : string) : startswith (p +:+ r) p = true.
Proof.
  induction p as [|c p IH]; simpl; [done|].
  by rewrite Ascii.eqb_refl.
Qed.

Lemma startswith_inv (s p : string) :
  startswith s p = true -> exists r, s = p +:+ r.
Proof.
  revert s; induction p as [|c p IH]; intros s H; simpl in *.
  - by exists s.
  - destruct s as [|d s]; [done|].
    destruct (Ascii.eqb_spec c d) as [->|]; [|done].
    destruct (IH _ H) as [r ->]. by exists r.
Qed.

Lemma slice_from_app (p r : string) : slice_from (String.length p) (p +:+ r) = r.
Proof. induction p as [|c p IH]; simpl; done. Qed.

Lemma append_assoc (a b c : string) : (a +:+ b) +:+ c = a +:+ (b +:+ c).
Proof. induction a as [|x a IH]; simpl; [done|]. by rewrite IH. Qed.

Lemma append_inv_head (a b c : string) : a +:+ b = a +:+ c -> b = c.
Proof. induction a as [|x a IH]; simpl; [done|]. intros [=]. auto. Qed.

Lemma split_nonempty (s : string) : split s <> [].
Proof.
  induction s as [|c s IH]; simpl; [done|].
  destruct (Ascii.eqb c slash); [done|]. by destruct (split s).
Qed.

Lemma join_split (s : string) : join (split s) = s.
Proof.
  induction s as [|c s IH]; simpl; [done|].
  destruct (Ascii.eqb_spec c slash) as [->|Hc].
  - pose proof (split_nonempty s) as Hne.
    simpl. destruct (split s) as [|k ks]; [done|]. by rewrite IH.
  - pose proof (split_nonempty s) as Hne.
    destruct (split s) as [|k ks]; [done|].
    destruct ks as [|k' ks]; simpl in *; by rewrite <- IH.
Qed.

Lemma split_inj (s t : string) : split s = split t -> s = t.
Proof. intros H. by rewrite <- (join_split s), <- (join_split t), H. Qed.

Lemma split_slash_free (s : string) : Forall (fun k => slash_free k = true) (split s).
Proof.
  induction s as [|c s IH]; simpl.
  - by repeat constructor.
  - destruct (Ascii.eqb_spec c slash) as [->|Hc].
    + by constructor.
    + assert (negb (Ascii.eqb c slash) = true) as Hn
        by (by destruct (Ascii.eqb_spec c slash)).
      destruct (split s) as [|k ks]; inversion IH; subst; constructor; simpl; auto.
      * by rewrite Hn.
      * rewrite Hn. simpl. done.
Qed.

Lemma split_segment (k : string) : slash_free k = true -> split k = [k].
Proof.
  induction k as [|c k IH]; simpl; [done|].
  destruct (Ascii.eqb c slash); simpl; [done|].
  intros H. by rewrite (IH H).
Qed.

Lemma split_app_slash (a b : string) :
  split (a +:+ "/" +:+ b) = split a ++ split b.
Proof.
  induction a as [|c a IH]; [reflexivity|].
  change (split (String c (a +:+ "/" +:+ b)) = split (String c a) ++ split b).
  cbn [split]. rewrite IH.
  destruct (Ascii.eqb c slash); [done|].
  pose proof (split_nonempty a). by destruct (split a).
Qed.

Lemma split_join (ks : list string) :
  ks <> [] -> Forall (fun k => slash_free k = true) ks -> split (join ks) = ks.
Proof.
  induction ks as [|k ks IH]; [done|]. intros _ H.
  inversion H as [|? ? Hk Hks]; subst.
  destruct ks as [|k' ks].
  - simpl. by apply split_segment.
  - change (join (k :: k' :: ks)) with (k +:+ "/" +:+ join (k' :: ks)).
    rewrite split_app_slash, split_segment, IH; done.
Qed.

Lemma join_cons (k : string) (ks : list string) :
  ks <> [] -> join (k :: ks) = k +:+ "/" +:+ join ks.
Proof. by destruct ks. Qed.

End PyStrFacts.

(** ** Facts about Python dicts *)

Module PyDictFacts.
Import PyDict.

Lemma get_setitem (k k' : string) (v : value) (d : dict) :
  get k' (setitem k v d) = if String.eqb k' k then Some v else get k' d.
Proof.
  induction d as [|k0 v0 d IH]; simpl.
  - done.
  - destruct (String.eqb_spec k k0) as [->|Hk]; simpl.
    + by destruct (String.eqb_spec k' k0).
    + rewrite IH. destruct (String.eqb_spec k' k0) as [->|]; [|done].
      by destruct (String.eqb_spec k0 k) as [->|].
Qed.

Lemma get_delitem_fresh (k k' : string) (d : dict) :
  get k' d = None -> get k' (delitem k d) = None.
Proof.
  induction d as [|k0 v0 d IH]; simpl; [done|].
  destruct (String.eqb_spec k' k0) as [->|Hk']; [done|].
  intros H. destruct (String.eqb_spec k k0) as [->|Hk]; [done|].
  simpl. destruct (String.eqb_spec k' k0); [done|]. auto.
Qed.

Lemma wf_dict_cons (k : string) (v : value) (d : dict) :
  wf_dict (DItem k v d) = true <->
  PyStr.slash_free k = true /\ get k d = None /\ wf_value v = true /\ wf_dict d = true.
Proof.
  simpl. rewrite !andb_true_iff. destruct (get k d); intuition congruence.
Qed.

Lemma get_delitem (k k' : string) (d : dict) :
  wf_dict d = true ->
  get k' (delitem k d) = if String.eqb k' k then None else get k' d.
Proof.
  induction d as [|k0 v0 d IH]; intros Hwf.
  - simpl. by destruct (String.eqb k' k).
  - apply wf_dict_cons in Hwf as (_ & Hfresh & _ & Hwf).
    cbn [delitem get].
    destruct (String.eqb_spec k k0) as [->|Hk].
    + destruct (String.eqb_spec k' k0) as [->|]; done.
    + cbn [get]. rewrite (IH Hwf).
      destruct (String.eqb_spec k' k0) as [->|]; [|done].
      by destruct (String.eqb_spec k0 k) as [->|].
Qed.

Lemma wf_setitem (k : string) (v : value) (d : dict) :
  PyStr.slash_free k = true -> wf_value v = true -> wf_dict d = true ->
  wf_dict (setitem k v d) = true.
Proof.
  intros Hk Hv. induction d as [|k0 v0 d IH]; intros Hwf.
  - simpl. by rewrite Hk, Hv.
  - apply wf_dict_cons in Hwf as (Hk0 & Hfresh & Hv0 & Hwf).
    cbn [setitem]. destruct (String.eqb_spec k k0) as [->|Hne].
    + apply wf_dict_cons. done.
    + apply wf_dict_cons. repeat split; auto.
      rewrite get_setitem. by destruct (String.eqb_spec k0 k) as [->|].
Qed.

Lemma wf_delitem (k : string) (d : dict) :
  wf_dict d = true -> wf_dict (delitem k d) = true.
Proof.
  induction d as [|k0 v0 d IH]; intros Hwf; [done|].
  apply wf_dict_cons in Hwf as (Hk0 & Hfresh & Hv0 & Hwf).
  cbn [delitem]. destruct (String.eqb k k0); [done|].
  apply wf_dict_cons. repeat split; auto using get_delitem_fresh.
Qed.

Lemma wf_get (k : string) (v : value) (d : dict) :
  wf_dict d = true -> get k d = Some v -> PyStr.slash_free k = true /\ wf_value v = true.
Proof.
  induction d as [|k0 v0 d IH]; intros Hwf; [done|].
  apply wf_dict_cons in Hwf as (Hk0 & Hfresh & Hv0 & Hwf).
  cbn [get]. destruct (String.eqb_spec k k0) as [->|]; [|by auto].
  by intros [= ->].
Qed.

End PyDictFacts.

(** ** Facts about the remote tree *)

Module StoreFacts.
Import PyDict PyDictFacts Store.

Lemma lookup_path_attr (p : list string) (a : attr) :
  is_attr (lookup_path p (Attr a)) = bool_decide (p = []).
Proof. by destruct p. Qed.

Lemma lookup_path_app (p q : list string) (v : value) :
  lookup_path (p ++ q) v =
  match lookup_path p v with
  | Some v' => lookup_path q v'
  | None => None
  end.
Proof.
  revert v; induction p as [|k p IH]; intros v; simpl; [done|].
  destruct v as [a|d]; [done|]. destruct (get k d); [apply IH|done].
Qed.

Lemma lookup_path_cons (k : string) (p : list string) (d : dict) :
  lookup_path (k :: p) (Dict d) =
  match get k d with
  | Some v => lookup_path p v
  | None => None
  end.
Proof. done. Qed.

Lemma wf_lookup_path (p : list string) (v v' : value) :
  wf_value v = true -> lookup_path p v = Some v' ->
  wf_value v' = true /\ Forall (fun k => PyStr.slash_free k = true) p.
Proof.
  revert v; induction p as [|k p IH]; intros v Hwf; simpl.
  - intros [= ->]. auto.
  - destruct v as [a|d]; [done|].
    destruct (get k d) as [v0|] eqn:Hget; [|done].
    destruct (wf_get _ _ _ Hwf Hget) as [Hk Hv0].
    intros H. destruct (IH _ Hv0 H). auto.
Qed.

Lemma set_path_step (k k1 : string) (ks : list string) (a : attr) (d : dict) :
  set_path (k :: k1 :: ks) a d =
  match get k d with
  | Some (Attr _) => None
  | Some (Dict sub) =>
      match set_path (k1 :: ks) a sub with
      | Some sub' => Some (setitem k (Dict sub') d)
      | None => None
      end
  | None =>
      match set_path (k1 :: ks) a DNil with
      | Some sub' => Some (setitem k (Dict sub') d)
      | None => None
      end
  end.
Proof. done. Qed.

Lemma pop_path_step (k k1 : string) (ks : list string) (d : dict) :
  pop_path (k :: k1 :: ks) d =
  match get k d with
  | Some (Dict sub) =>
      match pop_path (k1 :: ks) sub with
      | Some DNil => Some (delitem k d)
      | Some sub' => Some (setitem k (Dict sub') d)
      | None => None
      end
  | _ => None
  end.
Proof. done. Qed.

(** Writing an attribute adds its path to the leaves and touches no other leaf. *)
Lemma set_path_leaves (ks : list string) (a : attr) (d d' : dict) :
  set_path ks a d = Some d' ->
  forall p, is_attr (lookup_path p (Dict d'))
            = bool_decide (p = ks) || is_attr (lookup_path p (Dict d)).
Proof.
  revert d d'; induction ks as [|k ks IH]; intros d d' Hset p; [done|].
  destruct ks as [|k1 ks].
  - simpl in Hset.
    assert (d' = setitem k (Attr a) d /\ forall sub, get k d <> Some (Dict sub)) as [-> Hk].
    { destruct (get k d) as [[|]|]; naive_solver. }
    destruct p as [|k0 p]; [done|].
    rewrite !lookup_path_cons, get_setitem.
    destruct (String.eqb_spec k0 k) as [->|Hne].
    + rewrite lookup_path_attr.
      destruct p as [|k1 p].
      * rewrite !bool_decide_true by done. done.
      * rewrite !bool_decide_false by congruence. simpl.
        destruct (get k d) as [[a0|sub]|]; [done| |done]. by destruct (Hk sub).
    + rewrite bool_decide_false by congruence. done.
  - rewrite set_path_step in Hset.
    assert (exists sub sub', set_path (k1 :: ks) a sub = Some sub'
              /\ d' = setitem k (Dict sub') d
              /\ (get k d = Some (Dict sub) \/ (get k d = None /\ sub = DNil)))
      as (sub & sub' & Hsub & -> & Hk).
    { destruct (get k d) as [[a0|sub]|] eqn:Hget; [done| |].
      - destruct (set_path (k1 :: ks) a sub) as [sub'|] eqn:Hs; [|done].
        injection Hset as <-. exists sub, sub'. auto.
      - destruct (set_path (k1 :: ks) a DNil) as [sub'|] eqn:Hs; [|done].
        injection Hset as <-. exists DNil, sub'. auto. }
    specialize (IH _ _ Hsub).
    destruct p as [|k0 p]; [done|].
    rewrite !lookup_path_cons, get_setitem.
    destruct (String.eqb_spec k0 k) as [->|Hne].
    + rewrite IH. destruct Hk as [->|[-> ->]].
      * f_equal. apply bool_decide_ext. naive_solver.
      * assert (is_attr (lookup_path p (Dict DNil)) = false) as -> by (by destruct p).
        simpl. rewrite !orb_false_r. apply bool_decide_ext. naive_solver.
    + rewrite bool_decide_false by congruence. done.
Qed.

Lemma set_path_wf (ks : list string) (a : attr) (d d' : dict) :
  Forall (fun k => PyStr.slash_free k = true) ks ->
  wf_dict d = true -> set_path ks a d = Some d' -> wf_dict d' = true.
Proof.
  revert d d'; induction ks as [|k ks IH]; intros d d' Hks Hwf Hset; [done|].
  inversion Hks as [|? ? Hk Hks']; subst.
  destruct ks as [|k1 ks].
  - simpl in Hset.
    destruct (get k d) as [[|]|]; try done; injection Hset as <-;
      by apply wf_setitem.
  - rewrite set_path_step in Hset.
    destruct (get k d) as [[a0|sub]|] eqn:Hget; [done| |].
    + destruct (set_path (k1 :: ks) a sub) as [sub'|] eqn:Hs; [|done].
      injection Hset as <-. apply wf_setitem; auto.
      destruct (wf_get _ _ _ Hwf Hget) as [_ Hsub]. simpl in Hsub.
      simpl. by apply (IH sub).
    + destruct (set_path (k1 :: ks) a DNil) as [sub'|] eqn:Hs; [|done].
      injection Hset as <-. apply wf_setitem; auto.
      simpl. by apply (IH DNil).
Qed.

(** Deleting an attribute removes its path from the leaves and no other. *)
Lemma pop_path_leaves (ks : list string) (d d' : dict) :
  wf_dict d = true -> pop_path ks d = Some d' ->
  wf_dict d' = true /\
  forall p, is_attr (lookup_path p (Dict d'))
            = negb (bool_decide (p = ks)) && is_attr (lookup_path p (Dict d)).
Proof.
  revert d d'; induction ks as [|k ks IH]; intros d d' Hwf Hpop; [done|].
  destruct ks as [|k1 ks].
  - simpl in Hpop.
    destruct (get k d) as [[a0|]|] eqn:Hget; try done. injection Hpop as <-.
    split; [by apply wf_delitem|]. intros p.
    destruct p as [|k0 p]; [done|].
    rewrite !lookup_path_cons, get_delitem by done.
    destruct (String.eqb_spec k0 k) as [->|Hne].
    + rewrite Hget, lookup_path_attr. destruct p; simpl.
      * by rewrite bool_decide_true.
      * by rewrite andb_false_r.
    + rewrite bool_decide_false by congruence. done.
  - rewrite pop_path_step in Hpop.
    destruct (get k d) as [[a0|sub]|] eqn:Hget; try done.
    destruct (pop_path (k1 :: ks) sub) as [sub'|] eqn:Hs; [|done].
    destruct (wf_get _ _ _ Hwf Hget) as [Hk Hsub].
    destruct (IH _ _ Hsub Hs) as [Hwf' Hleaves].
    assert (forall p, is_attr (lookup_path (k :: p) (Dict d'))
                      = is_attr (lookup_path p (Dict sub'))) as Hd'.
    { intros p. rewrite lookup_path_cons.
      destruct sub' as [|k' v' sub']; injection Hpop as <-.
      - rewrite get_delitem, String.eqb_refl by done. by destruct p.
      - by rewrite get_setitem, String.eqb_refl. }
    split.
    { destruct sub' as [|k' v' sub']; injection Hpop as <-.
      - by apply wf_delitem.
      - by apply wf_setitem. }
    intros p. destruct p as [|k0 p].
    { by rewrite bool_decide_false. }
    destruct (String.eqb_spec k0 k) as [->|Hne].
    + rewrite Hd', Hleaves, lookup_path_cons, Hget. f_equal. f_equal.
      apply bool_decide_ext. split; congruence.
    + rewrite bool_decide_false by congruence.
      rewrite !lookup_path_cons.
      destruct sub' as [|k' v' sub']; injection Hpop as <-.
      * rewrite get_delitem by done. by destruct (String.eqb_spec k0 k).
      * rewrite get_setitem. by destruct (String.eqb_spec k0 k).
Qed.

End StoreFacts.

(** ** The enumeration of the uploaded names *)

Module EnumFacts.
Import PyStr PyStrFacts PyDict PyDictFacts Store StoreFacts.

Lemma build_path_cons (pb : option string) (k : string) (ks : list string) :
  ks <> [] -> build_path pb (k :: ks) = build_path (Some (build_path pb [k])) ks.
Proof.
  intros Hks. destruct pb as [p|]; unfold build_path.
  - rewrite (join_cons k ks Hks). simpl. by rewrite append_assoc.
  - by rewrite (join_cons k ks Hks).
Qed.

Lemma build_path_inj (pb : option string) (ks ks' : list string) :
  ks <> [] -> ks' <> [] ->
  Forall (fun k => slash_free k = true) ks ->
  Forall (fun k => slash_free k = true) ks' ->
  build_path pb ks = build_path pb ks' -> ks = ks'.
Proof.
  intros Hne Hne' Hks Hks' Heq.
  assert (join ks = join ks') as Hj.
  { unfold build_path in Heq. destruct pb as [p|]; [|exact Heq].
    apply append_inv_head in Heq. by apply (append_inv_head "/") in Heq. }
  by rewrite <- (split_join ks), <- (split_join ks'), Hj.
Qed.

Lemma dict_paths_enumerates (d : dict) : enumerates d.
Proof.
  induction d as [a|d IH| |k v IHv d IHd]
    using dict_value_ind
    with (P := fun v => match v with Attr _ => True | Dict d => enumerates d end);
    try done.
  - intros _ pb x. simpl. split; [by intros ?%elem_of_nil|].
    intros ([|k ks] & Hne & _ & Hl); done.
  - intros Hwf pb x.
    apply wf_dict_cons in Hwf as (Hk & Hfresh & Hv & Hd).
    cbn [_dict_paths].
    change (match pb with Some p => p +:+ "/" +:+ k | None => k end)
      with (build_path pb [k]).
    rewrite elem_of_app, (IHd Hd pb x). split.
    + intros [Hx|(ks & Hne & -> & Hl)].
      * destruct v as [a|sub].
        -- apply list_elem_of_singleton in Hx as ->. exists [k].
           split; [done|]. split; [done|].
           by rewrite lookup_path_cons; cbn [get]; rewrite String.eqb_refl.
        -- apply (IHv Hv) in Hx as (ks & Hne & -> & Hl).
           exists (k :: ks). split; [done|]. split; [symmetry; by apply build_path_cons|].
           by rewrite lookup_path_cons; cbn [get]; rewrite String.eqb_refl.
      * exists ks. split; [done|]. split; [done|].
        destruct ks as [|k0 ks]; [done|].
        rewrite lookup_path_cons in Hl |- *. cbn [get].
        destruct (String.eqb_spec k0 k) as [->|]; [|done].
        by rewrite Hfresh in Hl.
    + intros (ks & Hne & -> & Hl).
      destruct ks as [|k0 ks]; [done|].
      rewrite lookup_path_cons in Hl. cbn [get] in Hl.
      destruct (String.eqb_spec k0 k) as [->|Hk0].
      * left. destruct v as [a|sub].
        -- rewrite lookup_path_attr in Hl. apply bool_decide_eq_true in Hl as ->.
           by apply list_elem_of_singleton.
        -- destruct ks as [|k1 ks]; [done|].
           apply (IHv Hv). exists (k1 :: ks).
           split; [done|]. split; [by apply build_path_cons|done].
      * right. exists (k0 :: ks). split; [done|]. split; [done|].
        by rewrite lookup_path_cons.
Qed.

Lemma leaf_keys_slash_free (ks : list string) (d : dict) :
  wf_dict d = true -> is_attr (lookup_path ks (Dict d)) = true ->
  Forall (fun k => slash_free k = true) ks.
Proof.
  intros Hwf Hl. destruct (lookup_path ks (Dict d)) as [v|] eqn:Hlk; [|done].
  by destruct (wf_lookup_path ks (Dict d) v Hwf Hlk).
Qed.

Lemma dict_paths_NoDup (d : dict) : yields_once d.
Proof.
  induction d as [a|d IH| |k v IHv d IHd]
    using dict_value_ind
    with (P := fun v => match v with Attr _ => True | Dict d => yields_once d end);
    try done.
  - intros _ pb. constructor.
  - intros Hwf pb. pose proof Hwf as Hwf0.
    apply wf_dict_cons in Hwf as (Hk & Hfresh & Hv & Hd).
    cbn [_dict_paths].
    change (match pb with Some p => p +:+ "/" +:+ k | None => k end)
      with (build_path pb [k]).
    apply NoDup_app. split; [|split].
    + destruct v as [a|sub]; [apply NoDup_singleton|by apply (IHv Hv)].
    + intros x Hx1 Hx2.
      assert (x ∈ _dict_paths (DItem k v DNil) pb) as Hx1'.
      { cbn [_dict_paths]. by rewrite app_nil_r. }
      assert (wf_dict (DItem k v DNil) = true) as Hwf1.
      { apply wf_dict_cons. done. }
      apply (dict_paths_enumerates _ Hwf1) in Hx1' as (ks1 & Hne1 & -> & Hl1).
      apply (dict_paths_enumerates _ Hd) in Hx2 as (ks2 & Hne2 & Heq & Hl2).
      pose proof (leaf_keys_slash_free _ _ Hwf1 Hl1) as Hs1.
      pose proof (leaf_keys_slash_free _ _ Hd Hl2) as Hs2.
      apply build_path_inj in Heq; [|done..].
      subst ks2. destruct ks1 as [|k0 ks1]; [done|].
      rewrite lookup_path_cons in Hl1, Hl2. cbn [get] in Hl1.
      destruct (String.eqb_spec k0 k) as [->|]; [|done].
      by rewrite Hfresh in Hl2.
    + by apply IHd.
Qed.

Lemma reduce_getitem_lookup (ks : list string) (v v' : value) :
  reduce_getitem v ks = Ok v' <-> lookup_path ks v = Some v'.
Proof.
  revert v; induction ks as [|k ks IH]; intros v; simpl.
  - split; intros [=]; by subst.
  - destruct v as [a|d]; simpl; [done|].
    destruct (get k d) as [v0|]; [apply IH|done].
Qed.

End EnumFacts.

(** ** Running the blocks of the hook *)

Module RunFacts.
Import PyStr PyStrFacts PyDict PyDictFacts Store StoreFacts EnumFacts.

Lemma bind_run {A B} (m : M A) (f : A -> M B) (s : run) :
  (m ≫= f) s =
  match m s with
  | (Ok a, s1) => f a s1
  | (Raise e, s1) => (Raise e, s1)
  end.
Proof. done. Qed.

Lemma get_full_model_name_eq (p : string) (cb : ModelCheckpoint) :
  _get_full_model_name p cb =
  if valid_path cb p then Ok (short_name cb p)
  else Raise (ValueError (p +:+ " was expected to start with " +:+ (dirpath cb +:+ "/") +:+ ".")).
Proof. unfold _get_full_model_name, valid_path, short_name. by destruct (startswith _ _). Qed.

Lemma perform_ok (o : op) (s s' : run) :
  perform o s = (Ok tt, s') ->
  effect o (structure s) = Some (structure s')
  /\ calls s' = calls s ++ [(o, Done)]
  /\ faults s' = tail (faults s).
Proof.
  unfold perform. destruct (head (faults s)) as [[code|]|];
    destruct (effect o (structure s)); intros [=]; subst; done.
Qed.

Lemma perform_raise (o : op) (s s' : run) (x : exn) :
  perform o s = (Raise x, s') ->
  exists e, x = StoreError e
            /\ structure s' = structure s
            /\ calls s' = calls s ++ [(o, Failed e)]
            /\ faults s' = tail (faults s).
Proof.
  unfold perform. destruct (head (faults s)) as [[code|]|];
    destruct (effect o (structure s)); intros [=]; subst; eauto.
Qed.

(** The leaves of a run's tree, as key paths. *)
Local Abbreviation leaf s p := (is_attr (lookup_path p (Dict (structure s))) = true).

Lemma perform_write_ok (o : op) (path : string) (a : attr) (s s' : run) :
  effect o = set_path (split path) a ->
  wf_dict (structure s) = true ->
  perform o s = (Ok tt, s') ->
  wf_dict (structure s') = true
  /\ calls s' = calls s ++ [(o, Done)]
  /\ forall p, leaf s' p <-> leaf s p \/ p = split path.
Proof.
  intros Ho Hwf Hrun. apply perform_ok in Hrun as (Heff & Hcalls & _).
  rewrite Ho in Heff. split; [|split; [done|]].
  - eapply set_path_wf; eauto using split_slash_free.
  - intros p. rewrite (set_path_leaves _ _ _ _ Heff p), orb_true_iff, bool_decide_eq_true.
    tauto.
Qed.

Lemma perform_delete_ok (path : string) (s s' : run) :
  wf_dict (structure s) = true ->
  perform (Delete path) s = (Ok tt, s') ->
  wf_dict (structure s') = true
  /\ calls s' = calls s ++ [(Delete path, Done)]
  /\ forall p, leaf s' p <-> leaf s p /\ p <> split path.
Proof.
  intros Hwf Hrun. apply perform_ok in Hrun as (Heff & Hcalls & _).
  destruct (pop_path_leaves _ _ _ Hwf Heff) as [Hwf' Hl].
  split; [done|]. split; [done|].
  intros p. rewrite (Hl p), andb_true_iff, negb_true_iff, bool_decide_eq_false.
  tauto.
Qed.

(** The upload loop, when it completes. *)
Lemma save_best_k_ok (cb : ModelCheckpoint) (ns : string) (keys : list string)
    (fn fn' : gset string) (s s' : run) :
  wf_dict (structure s) = true ->
  save_best_k cb ns keys fn s = (Ok fn', s') ->
  wf_dict (structure s') = true
  /\ Forall (fun p => valid_path cb p = true) keys
  /\ fn' = fn ∪ list_to_set (map (short_name cb) keys)
  /\ calls s' = calls s
       ++ map (fun p => (Upload (ns +:+ "/" +:+ short_name cb p) p, Done)) keys
  /\ forall p, leaf s' p <->
       leaf s p \/ exists key, key ∈ keys /\ p = split (ns +:+ "/" +:+ short_name cb key).
Proof.
  revert fn s; induction keys as [|key keys IH]; intros fn s Hwf Hrun.
  - injection Hrun as <- <-. rewrite app_nil_r.
    split; [done|]. split; [constructor|]. split; [set_solver|]. split; [done|].
    intros p. split; [by left|].
    intros [?|(key & ?%elem_of_nil & _)]; done.
  - cbn [save_best_k] in Hrun. rewrite bind_run in Hrun.
    unfold lift in Hrun. rewrite get_full_model_name_eq in Hrun.
    destruct (valid_path cb key) eqn:Hvalid; [|done].
    rewrite bind_run in Hrun. unfold upload in Hrun.
    destruct (perform _ s) as [[[]|e] s1] eqn:Hup; [|done].
    eapply perform_write_ok in Hup as (Hwf1 & Hcalls1 & Hl1); [|done|done].
    destruct (IH _ _ Hwf1 Hrun) as (Hwf' & Hvalids & -> & Hcalls & Hl).
    split; [done|]. split; [by constructor|]. split; [set_solver|].
    split; [by rewrite Hcalls, Hcalls1, <- app_assoc|].
    intros p. rewrite Hl, Hl1. split.
    + intros [[?| ->]|(key' & Hin & ->)]; [by left|right..].
      * exists key. split; [left|done].
      * exists key'. split; [by right|done].
    + intros [?|(key' & Hin & ->)]; [by left; left|].
      apply elem_of_cons in Hin as [-> |Hin]; [by left; right|].
      right. by exists key'.
Qed.

Lemma save_last_eq (self : NeptuneLogger) (cb : ModelCheckpoint) (ns : string)
    (fn : gset string) (s : run) :
  save_last self cb ns fn s =
  save_best_k cb ns
    (if truthy (last_model_path cb) then [last_model_path cb] else []) fn s.
Proof.
  unfold save_last. destruct (truthy (last_model_path cb)); [|done].
  cbn [save_best_k]. rewrite !bind_run. destruct (lift _ s) as [[name|e] s1]; [|done].
  rewrite !bind_run. by destruct (upload _ _ s1) as [[[]|e] s2].
Qed.

Lemma save_best_k_app (cb : ModelCheckpoint) (ns : string) (l1 l2 : list string)
    (fn : gset string) (s : run) :
  save_best_k cb ns (l1 ++ l2) fn s =
  (save_best_k cb ns l1 fn ≫= save_best_k cb ns l2) s.
Proof.
  revert fn s; induction l1 as [|key l1 IH]; intros fn s; [done|].
  cbn [app save_best_k]. rewrite !bind_run.
  destruct (lift _ s) as [[name|e] s1]; [|done].
  rewrite !bind_run. destruct (upload _ _ s1) as [[[]|e] s2]; [|done].
  by rewrite IH, bind_run.
Qed.

(** The hook, with checkpoint logging enabled, as three phases. *)
Lemma after_save_checkpoint_phases (self : NeptuneLogger) (cb : ModelCheckpoint) (s : run) :
  _log_model_checkpoints self = true ->
  after_save_checkpoint self cb s =
  (save_best_k cb (checkpoints_namespace self) (supplied_paths cb) ∅ ≫= fun fn =>
   drop_old (checkpoints_namespace self) fn ≫= fun _ => log_best self cb) s.
Proof.
  intros Hlog. unfold after_save_checkpoint. rewrite Hlog. cbn [negb].
  fold (checkpoints_namespace self). unfold supplied_paths.
  rewrite !bind_run, save_best_k_app, bind_run, save_last_eq.
  by destruct (save_best_k _ _ _ _ s) as [[fn|e] s1].
Qed.

Lemma exists_ok (path : string) (b : bool) (s s' : run) :
  exists_ path s = (Ok b, s') ->
  structure s' = structure s
  /\ calls s' = calls s ++ [(Exists path, Done)]
  /\ b = bool_decide (is_Some (lookup_path (split path) (Dict (structure s)))).
Proof.
  unfold exists_. rewrite bind_run.
  destruct (perform _ s) as [[[]|e] s1] eqn:Hp; [|done].
  apply perform_ok in Hp as (Heff & Hcalls & _). injection Heff as Heff.
  unfold gets. intros [= <- <-]. by rewrite Heff.
Qed.

Lemma get_structure_ok (v : value) (s s' : run) :
  get_structure s = (Ok v, s') ->
  structure s' = structure s
  /\ calls s' = calls s ++ [(GetStructure, Done)]
  /\ v = Dict (structure s).
Proof.
  unfold get_structure. rewrite bind_run.
  destruct (perform _ s) as [[[]|e] s1] eqn:Hp; [|done].
  apply perform_ok in Hp as (Heff & Hcalls & _). injection Heff as Heff.
  unfold gets. intros [= <- <-]. by rewrite Heff.
Qed.

(** The delete loop, when it completes. *)
Lemma delete_all_ok (ns : string) (l : list string) (s s' : run) :
  wf_dict (structure s) = true ->
  for_each l (fun f => delete (ns +:+ "/" +:+ f)) s = (Ok tt, s') ->
  wf_dict (structure s') = true
  /\ calls s' = calls s ++ map (fun f => (Delete (ns +:+ "/" +:+ f), Done)) l
  /\ forall p, leaf s' p <->
       leaf s p /\ forall f, f ∈ l -> p <> split (ns +:+ "/" +:+ f).
Proof.
  revert s; induction l as [|f l IH]; intros s Hwf Hrun.
  - injection Hrun as <-. rewrite app_nil_r. split; [done|]. split; [done|].
    intros p. split; [|tauto]. intros Hp. split; [done|].
    by intros f ?%elem_of_nil.
  - cbn [for_each] in Hrun. rewrite bind_run in Hrun. unfold delete in Hrun.
    destruct (perform _ s) as [[[]|e] s1] eqn:Hdel; [|done].
    apply perform_delete_ok in Hdel as (Hwf1 & Hcalls1 & Hl1); [|done].
    destruct (IH _ Hwf1 Hrun) as (Hwf' & Hcalls & Hl).
    split; [done|]. split; [by rewrite Hcalls, Hcalls1, <- app_assoc|].
    intros p. rewrite Hl, Hl1. split.
    + intros [[Hp Hne] Hrest]. split; [done|].
      intros f' [-> |Hin]%elem_of_cons; auto.
    + intros [Hp Hall]. split; [split; [done|]|].
      * apply Hall. left.
      * intros f' Hin. apply Hall. by right.
Qed.

(** The names the hook reads back are the leaves under the namespace. *)
Lemma uploaded_names_spec (d sub : dict) (ns name : string) :
  wf_dict d = true ->
  lookup_path (split ns) (Dict d) = Some (Dict sub) ->
  name ∈ _dict_paths sub None <-> remote_leaf d ns name = true.
Proof.
  intros Hwf Hns.
  destruct (wf_lookup_path _ (Dict d) _ Hwf Hns) as [Hsub _]. simpl in Hsub.
  unfold remote_leaf. rewrite split_app_slash, lookup_path_app, Hns.
  rewrite (dict_paths_enumerates sub Hsub None name). unfold build_path. split.
  - intros (ks & Hne & -> & Hl).
    rewrite split_join; eauto using leaf_keys_slash_free.
  - intros Hl. exists (split name). rewrite join_split.
    split; [apply split_nonempty|done].
Qed.

Lemma no_namespace_no_leaf (d : dict) (ns name : string) :
  lookup_path (split ns) (Dict d) = None -> remote_leaf d ns name = false.
Proof.
  intros Hns. unfold remote_leaf. by rewrite split_app_slash, lookup_path_app, Hns.
Qed.

(** The third block, when it completes. *)
Lemma drop_old_ok (ns : string) (fn : gset string) (s s' : run) :
  wf_dict (structure s) = true ->
  drop_old ns fn s = (Ok tt, s') ->
  wf_dict (structure s') = true
  /\ (exists enum dropped,
        calls s' = calls s ++ (Exists ns, Done) :: enum
                     ++ map (fun f => (Delete (ns +:+ "/" +:+ f), Done)) dropped
        /\ (enum = [] \/ enum = [(GetStructure, Done)])
        /\ forall f, f ∈ dropped -> (f ∉ fn) /\ remote_leaf (structure s) ns f = true)
  /\ (forall name, remote_leaf (structure s') ns name = true <->
                   remote_leaf (structure s) ns name = true /\ name ∈ fn)
  /\ (forall p, leaf s' p -> leaf s p).
Proof.
  intros Hwf Hrun. unfold drop_old in Hrun. rewrite bind_run in Hrun.
  destruct (exists_ ns s) as [[b|e] s1] eqn:Hex; [|done].
  apply exists_ok in Hex as (Hs1 & Hcalls1 & ->).
  case_bool_decide as Hns.
  - rewrite bind_run in Hrun.
    destruct (get_structure s1) as [[v|e] s2] eqn:Hget; [|done].
    apply get_structure_ok in Hget as (Hs2 & Hcalls2 & ->).
    rewrite bind_run in Hrun. unfold lift in Hrun.
    unfold _get_full_model_names_from_exp_structure in Hrun.
    destruct Hns as [v Hv]. rewrite Hs1 in Hrun.
    apply reduce_getitem_lookup in Hv as Hred. rewrite Hred in Hrun.
    destruct v as [a|sub]; [done|].
    rewrite <- Hs1, <- Hs2 in Hwf.
    apply delete_all_ok in Hrun as (Hwf' & Hcalls & Hl); [|done].
    rewrite Hs2, Hs1 in Hl.
    assert (forall f, f ∈ elements
              (list_to_set (_dict_paths sub None) ∖ fn : gset string) <->
              remote_leaf (structure s) ns f = true /\ (f ∉ fn)) as Hdropped.
    { intros f. rewrite elem_of_elements, elem_of_difference, elem_of_list_to_set.
      rewrite Hs2, Hs1 in Hwf. by rewrite (uploaded_names_spec _ _ _ _ Hwf Hv). }
    split; [done|]. split; [|split].
    + eexists [(GetStructure, Done)], _. split; [|split; [by right|]].
      * rewrite Hcalls, Hcalls2, Hcalls1, <- !app_assoc. done.
      * intros f Hf%Hdropped. tauto.
    + intros name. unfold remote_leaf at 1. rewrite Hl.
      fold (remote_leaf (structure s) ns name). split.
      * intros [Hleaf Hall]. split; [done|].
        destruct (decide (name ∈ fn)) as [|Hnot]; [done|].
        destruct (Hall name); [|done]. apply Hdropped. done.
      * intros [Hleaf Hin]. split; [done|].
        intros f [_ Hf]%Hdropped ->%split_inj%append_inv_head%append_inv_head. done.
    + intros p Hp%Hl. tauto.
  - injection Hrun as <-.
    assert (lookup_path (split ns) (Dict (structure s)) = None) as Hnone.
    { destruct (lookup_path _ _) eqn:E; [|done]. destruct Hns. eauto. }
    rewrite Hs1. split; [done|]. split; [|split].
    + exists [], []. rewrite Hcalls1. split; [done|]. split; [by left|].
      by intros f ?%elem_of_nil.
    + intros name. rewrite (no_namespace_no_leaf _ _ _ Hnone). split; [done|tauto].
    + done.
Qed.

Lemma split_construct (self : NeptuneLogger) (x : string) :
  split (_construct_path_with_prefix self [x]) = prefix_keys self ++ split x.
Proof.
  unfold _construct_path_with_prefix, prefix_keys.
  destruct (truthy (_prefix self)); [|done].
  change (join [_prefix self; x]) with (_prefix self +:+ "/" +:+ x).
  apply split_app_slash.
Qed.

Lemma split_checkpoint_path (self : NeptuneLogger) (name : string) :
  split (checkpoints_namespace self +:+ "/" +:+ name)
  = prefix_keys self ++ ["model"; "checkpoints"] ++ split name.
Proof.
  unfold checkpoints_namespace.
  by rewrite split_app_slash, split_construct, <- app_assoc.
Qed.

(** An assignment next to the checkpoints namespace leaves its leaves alone. *)
Lemma assign_beside_ok (self : NeptuneLogger) (key : string) (a : attr) (s s' : run) :
  key <> "checkpoints" -> slash_free key = true ->
  wf_dict (structure s) = true ->
  assign (_construct_path_with_prefix self ["model/" +:+ key]) a s = (Ok tt, s') ->
  wf_dict (structure s') = true
  /\ calls s' = calls s
       ++ [(Assign (_construct_path_with_prefix self ["model/" +:+ key]) a, Done)]
  /\ forall name, remote_leaf (structure s') (checkpoints_namespace self) name = true <->
                  remote_leaf (structure s) (checkpoints_namespace self) name = true.
Proof.
  intros Hkey Hfree Hwf Hrun. unfold assign in Hrun.
  eapply perform_write_ok in Hrun as (Hwf' & Hcalls & Hl); [|done|done].
  split; [done|]. split; [done|].
  intros name. unfold remote_leaf. rewrite Hl. split; [|by left].
  intros [?|Heq]; [done|]. exfalso.
  rewrite split_checkpoint_path, split_construct in Heq.
  apply app_inv_head in Heq.
  change ("model/" +:+ key) with ("model" +:+ "/" +:+ key) in Heq.
  rewrite split_app_slash, (split_segment key Hfree) in Heq.
  simpl in Heq. congruence.
Qed.

(** The last block, when it completes. *)
Lemma log_best_ok (self : NeptuneLogger) (cb : ModelCheckpoint) (s s' : run) :
  wf_dict (structure s) = true ->
  log_best self cb s = (Ok tt, s') ->
  wf_dict (structure s') = true
  /\ calls s' = calls s ++ best_model_calls self cb
  /\ forall name, remote_leaf (structure s') (checkpoints_namespace self) name = true <->
                  remote_leaf (structure s) (checkpoints_namespace self) name = true.
Proof.
  intros Hwf Hrun. unfold log_best in Hrun. rewrite bind_run in Hrun.
  unfold best_model_calls.
  assert (exists s1,
    wf_dict (structure s1) = true
    /\ calls s1 = calls s ++
         (if truthy (best_model_path cb) then
            [(Assign (_construct_path_with_prefix self ["model/best_model_path"])
                (StringAttr (best_model_path cb)), Done)]
          else [])
    /\ (forall name, remote_leaf (structure s1) (checkpoints_namespace self) name = true <->
                     remote_leaf (structure s) (checkpoints_namespace self) name = true)
    /\ match best_model_score cb with
       | Some x =>
           if score_truthy (Some x) then
             assign (_construct_path_with_prefix self ["model/best_model_score"])
               (FloatAttr x)
           else mret tt
       | None => mret tt
       end s1 = (Ok tt, s')) as (s1 & Hwf1 & Hcalls1 & Hl1 & Hrun1).
  { destruct (truthy (best_model_path cb)).
    - destruct (assign _ _ s) as [[[]|e] s1] eqn:Ha; [|done].
      apply (assign_beside_ok self "best_model_path") in Ha as (? & ? & ?); [|done..].
      by exists s1.
    - exists s. by rewrite app_nil_r. }
  clear Hrun. rewrite app_assoc, <- Hcalls1.
  destruct (best_model_score cb) as [x|].
  - destruct (score_truthy (Some x)).
    + apply (assign_beside_ok self "best_model_score") in Hrun1 as (? & ? & Hl); [|done..].
      split; [done|]. split; [done|]. intros name. by rewrite Hl.
    + injection Hrun1 as <-. by rewrite app_nil_r.
  - injection Hrun1 as <-. by rewrite app_nil_r.
Qed.

(** The whole hook, with checkpoint logging enabled, when it completes. *)
Lemma synchronized (self : NeptuneLogger) (cb : ModelCheckpoint) (s s' : run) :
  _log_model_checkpoints self = true ->
  wf_dict (structure s) = true ->
  after_save_checkpoint self cb s = (Ok tt, s') ->
  wf_dict (structure s') = true
  /\ Forall (fun p => valid_path cb p = true) (supplied_paths cb)
  /\ (forall name, remote_leaf (structure s') (checkpoints_namespace self) name = true <->
                   name ∈ desired_names cb)
  /\ exists enum dropped,
       calls s' = calls s
         ++ map (fun p => (upload_of self cb p, Done)) (supplied_paths cb)
         ++ (Exists (checkpoints_namespace self), Done) :: enum
         ++ map (fun f => (Delete (checkpoints_namespace self +:+ "/" +:+ f), Done)) dropped
         ++ best_model_calls self cb
       /\ (enum = [] \/ enum = [(GetStructure, Done)])
       /\ forall f, f ∈ dropped -> f ∉ desired_names cb.
Proof.
  intros Hlog Hwf Hrun. rewrite after_save_checkpoint_phases in Hrun by done.
  rewrite bind_run in Hrun.
  destruct (save_best_k _ _ _ _ s) as [[fn|e] s1] eqn:Hup; [|done].
  apply save_best_k_ok in Hup as (Hwf1 & Hvalid & Hfn & Hcalls1 & Hl1); [|done].
  rewrite bind_run in Hrun.
  destruct (drop_old _ _ s1) as [[[]|e] s2] eqn:Hdrop; [|done].
  apply drop_old_ok in Hdrop
    as (Hwf2 & (enum & dropped & Hcalls2 & Henum & Hdropped) & Hl2 & _); [|done].
  apply log_best_ok in Hrun as (Hwf' & Hcalls & Hl); [|done].
  assert (fn = desired_names cb) as -> by (subst fn; unfold desired_names; set_solver).
  split; [done|]. split; [done|]. split.
  - intros name. rewrite Hl, Hl2. split; [tauto|]. intros Hin. split; [|done].
    unfold remote_leaf. apply Hl1. right.
    apply elem_of_list_to_set, list_elem_of_fmap in Hin as (p & -> & Hp). eauto.
  - exists enum, dropped. split; [|split; [done|]].
    + rewrite Hcalls, Hcalls2, Hcalls1. unfold upload_of.
      by rewrite <- !app_assoc, <- !app_comm_cons, <- !app_assoc.
    + intros f Hf. by destruct (Hdropped f Hf).
Qed.

End RunFacts.

(** ** Failures of the remote operations *)

Module FailureFacts.
Import PyStr PyStrFacts Store RunFacts.

Lemma replay_app (evs1 evs2 : list (op * outcome)) (d : dict) :
  replay (evs1 ++ evs2) d = replay evs2 (replay evs1 d).
Proof. apply fold_left_app. Qed.

Lemma propagating_lift {A} (r : result A) : not_store_error r -> propagating (lift r).
Proof.
  intros Hr s. exists []. rewrite app_nil_r. do 2 (split; [done|]).
  simpl. by destruct r as [a|[]].
Qed.

Lemma propagating_ret {A} (a : A) : propagating (mret a : M A).
Proof. intros s. exists []. by rewrite app_nil_r. Qed.

Lemma propagating_gets {A} (f : run -> A) : propagating (gets f).
Proof. intros s. exists []. by rewrite app_nil_r. Qed.

Lemma propagating_perform (o : op) : propagating (perform o).
Proof.
  intros s. destruct (perform o s) as [[[]|x] s'] eqn:Hrun.
  - apply perform_ok in Hrun as (Heff & Hcalls & _).
    exists [(o, Done)]. simpl. by rewrite Heff.
  - apply perform_raise in Hrun as (e & -> & Hst & Hcalls & _).
    exists [(o, Failed e)]. do 2 (split; [done|]). by exists [], o.
Qed.

Lemma propagating_bind {A B} (m : M A) (f : A -> M B) :
  propagating m -> (forall a, propagating (f a)) -> propagating (m ≫= f).
Proof.
  intros Hm Hf s. rewrite bind_run. specialize (Hm s).
  destruct (m s) as [[a|x] s1]; [|done].
  destruct Hm as (evs1 & Hcalls1 & Hst1 & Hdone1). simpl in *.
  specialize (Hf a s1). destruct (f a s1) as [r s'].
  destruct Hf as (evs2 & Hcalls2 & Hst2 & Hres). simpl in *.
  exists (evs1 ++ evs2).
  split; [by rewrite Hcalls2, Hcalls1, <- app_assoc|].
  split; [by rewrite Hst2, Hst1, replay_app|].
  destruct r as [b|x].
  - by rewrite forallb_app, Hdone1, Hres.
  - destruct x as [| | | |e]; try by rewrite forallb_app, Hdone1, Hres.
    destruct Hres as (evs0 & o & -> & Hdone0).
    exists (evs1 ++ evs0), o. by rewrite forallb_app, Hdone1, Hdone0, <- app_assoc.
Qed.

Lemma propagating_for_each {A} (l : list A) (body : A -> M unit) :
  (forall x, propagating (body x)) -> propagating (for_each l body).
Proof.
  intros Hbody. induction l as [|x l IH]; simpl.
  - apply propagating_ret.
  - by apply propagating_bind.
Qed.

Lemma propagating_exists (path : string) : propagating (exists_ path).
Proof.
  apply propagating_bind; [apply propagating_perform|].
  intros _. apply propagating_gets.
Qed.

Lemma propagating_get_structure : propagating get_structure.
Proof.
  apply propagating_bind; [apply propagating_perform|].
  intros _. apply propagating_gets.
Qed.

Lemma get_full_model_name_not_store_error (p : string) (cb : ModelCheckpoint) :
  not_store_error (_get_full_model_name p cb).
Proof. rewrite get_full_model_name_eq. by destruct (valid_path cb p). Qed.

Lemma reduce_getitem_not_store_error (ks : list string) (v : value) :
  not_store_error (reduce_getitem v ks).
Proof.
  revert v; induction ks as [|k ks IH]; intros v; simpl; [done|].
  destruct v as [a|d]; simpl; [done|]. destruct (PyDict.get k d); [apply IH|done].
Qed.

Lemma uploaded_names_not_store_error (v : value) (ns : string) :
  not_store_error (_get_full_model_names_from_exp_structure v ns).
Proof.
  unfold _get_full_model_names_from_exp_structure.
  pose proof (reduce_getitem_not_store_error (split ns) v) as H.
  by destruct (reduce_getitem v (split ns)) as [[a|d]|x].
Qed.

Lemma propagating_save_best_k (cb : ModelCheckpoint) (ns : string) (keys : list string)
    (fn : gset string) :
  propagating (save_best_k cb ns keys fn).
Proof.
  revert fn; induction keys as [|key keys IH]; intros fn; simpl.
  - apply propagating_ret.
  - apply propagating_bind.
    + apply propagating_lift, get_full_model_name_not_store_error.
    + intros name. apply propagating_bind; [apply propagating_perform|]. auto.
Qed.

Lemma propagating_drop_old (ns : string) (fn : gset string) :
  propagating (drop_old ns fn).
Proof.
  apply propagating_bind; [apply propagating_exists|].
  intros [|]; [|apply propagating_ret].
  apply propagating_bind; [apply propagating_get_structure|]. intros v.
  apply propagating_bind.
  - apply propagating_lift, uploaded_names_not_store_error.
  - intros names. apply propagating_for_each. intros f. apply propagating_perform.
Qed.

Lemma propagating_log_best (self : NeptuneLogger) (cb : ModelCheckpoint) :
  propagating (log_best self cb).
Proof.
  apply propagating_bind.
  - destruct (truthy _); [apply propagating_perform|apply propagating_ret].
  - intros _. destruct (best_model_score cb) as [x|]; [|apply propagating_ret].
    destruct (score_truthy _); [apply propagating_perform|apply propagating_ret].
Qed.

Lemma propagating_after_save_checkpoint (self : NeptuneLogger) (cb : ModelCheckpoint) :
  propagating (after_save_checkpoint self cb).
Proof.
  unfold after_save_checkpoint.
  destruct (_log_model_checkpoints self); simpl; [|apply propagating_ret].
  apply propagating_bind.
  { unfold save_last. destruct (truthy _); [|apply propagating_ret].
    apply propagating_bind.
    - apply propagating_lift, get_full_model_name_not_store_error.
    - intros name. apply propagating_bind; [apply propagating_perform|].
      intros _. apply propagating_ret. }
  intros fn. apply propagating_bind; [apply propagating_save_best_k|].
  intros fn'. apply propagating_bind; [apply propagating_drop_old|].
  intros _. apply propagating_log_best.
Qed.

(** The upload loop on a list with an invalid path: it stops at the first
    one, or earlier at an upload that fails. *)
Lemma save_best_k_invalid (cb : ModelCheckpoint) (ns : string)
    (pre : list string) (bad : string) (post : list string)
    (fn : gset string) (s : run) :
  Forall (fun p => valid_path cb p = true) pre ->
  valid_path cb bad = false ->
  let r := (save_best_k cb ns (pre ++ bad :: post) fn s).1 in
  let s' := (save_best_k cb ns (pre ++ bad :: post) fn s).2 in
  (r = Raise (ValueError (invalid_path_message cb bad))
   /\ calls s' = calls s
        ++ map (fun p => (Upload (ns +:+ "/" +:+ short_name cb p) p, Done)) pre)
  \/ (exists e pre1 p pre2,
        pre = pre1 ++ p :: pre2
        /\ r = Raise (StoreError e)
        /\ calls s' = calls s
             ++ map (fun p => (Upload (ns +:+ "/" +:+ short_name cb p) p, Done)) pre1
             ++ [(Upload (ns +:+ "/" +:+ short_name cb p) p, Failed e)]).
Proof.
  intros Hpre Hbad. revert fn s.
  induction Hpre as [|key pre Hkey Hpre IH]; intros fn s; cbn zeta.
  - left. cbn [app save_best_k]. rewrite bind_run. unfold lift.
    rewrite get_full_model_name_eq, Hbad. simpl. by rewrite app_nil_r.
  - cbn [app save_best_k]. rewrite bind_run. unfold lift.
    rewrite get_full_model_name_eq, Hkey, bind_run. unfold upload.
    destruct (perform _ s) as [[[]|x] s1] eqn:Hup.
    + apply perform_ok in Hup as (_ & Hcalls1 & _).
      destruct (IH (fn ∪ {[short_name cb key]}) s1)
        as [[Hr Hcalls]|(e & pre1 & p & pre2 & -> & Hr & Hcalls)].
      * left. split; [done|]. by rewrite Hcalls, Hcalls1, <- app_assoc.
      * right. exists e, (key :: pre1), p, pre2. split; [done|]. split; [done|].
        by rewrite Hcalls, Hcalls1, <- app_assoc.
    + apply perform_raise in Hup as (e & -> & _ & Hcalls1 & _).
      right. exists e, [], key, pre. simpl. by rewrite Hcalls1.
Qed.

Lemma first_invalid (cb : ModelCheckpoint) (l : list string) :
  List.Exists (fun p => valid_path cb p = false) l ->
  exists pre bad post,
    l = pre ++ bad :: post
    /\ Forall (fun p => valid_path cb p = true) pre
    /\ valid_path cb bad = false.
Proof.
  induction l as [|p l IH]; intros Hex; [by inversion Hex|].
  destruct (valid_path cb p) eqn:Hp.
  - inversion Hex as [? ? Hp'|? ? Hl]; subst; [congruence|].
    destruct (IH Hl) as (pre & bad & post & -> & Hpre & Hbad).
    exists (p :: pre), bad, post. auto.
  - exists [], p, l. auto.
Qed.

End FailureFacts.

(** ** Calling the hook again *)

Module AgainFacts.
Import PyStr PyStrFacts PyDict PyDictFacts Store StoreFacts EnumFacts RunFacts.

Local Abbreviation leaf s p := (is_attr (lookup_path p (Dict (structure s))) = true).

Lemma set_path_on_leaf (ks : list string) (a : attr) (d : dict) :
  is_attr (lookup_path ks (Dict d)) = true -> exists d', set_path ks a d = Some d'.
Proof.
  revert d; induction ks as [|k ks IH]; intros d Hl; [done|].
  rewrite lookup_path_cons in Hl.
  destruct (get k d) as [v|] eqn:Hget; [|done].
  destruct ks as [|k1 ks].
  - simpl in Hl. destruct v as [a0|sub]; [|done]. simpl. rewrite Hget. eauto.
  - destruct v as [a0|sub]; [done|].
    destruct (IH sub Hl) as [sub' Hsub].
    rewrite set_path_step, Hget, Hsub. eauto.
Qed.

Lemma quiet_perform (o : op) (d' : dict) (s : run) :
  quiet s -> effect o (structure s) = Some d' ->
  exists s', perform o s = (Ok tt, s')
             /\ quiet s' /\ structure s' = d' /\ calls s' = calls s ++ [(o, Done)].
Proof.
  unfold quiet, perform. intros Hq Heff. rewrite Heff.
  destruct (faults s) as [|f fs]; simpl.
  - eexists. split; [done|]. by split.
  - inversion Hq as [|? ? -> Hfs]; subst. eexists. split; [done|]. by split.
Qed.

(** Writing an attribute where one already is succeeds and keeps the leaves. *)
Lemma write_again (o : op) (path : string) (a : attr) (s : run) :
  effect o = set_path (split path) a ->
  quiet s -> wf_dict (structure s) = true -> leaf s (split path) ->
  exists s', perform o s = (Ok tt, s')
             /\ quiet s' /\ wf_dict (structure s') = true
             /\ forall p, leaf s' p <-> leaf s p.
Proof.
  intros Ho Hq Hwf Hl.
  destruct (set_path_on_leaf _ a _ Hl) as [d' Hset].
  destruct (quiet_perform o d' s Hq) as (s' & Hrun & Hq' & Hst & _);
    [by rewrite Ho|].
  exists s'. split; [done|]. split; [done|].
  destruct (perform_write_ok o path a s s' Ho Hwf Hrun) as (Hwf' & _ & Hleaves).
  split; [done|]. intros p. rewrite Hleaves. split; [|by left].
  by intros [?| ->].
Qed.

Lemma save_best_k_again (cb : ModelCheckpoint) (ns : string) (keys : list string)
    (fn : gset string) (s : run) :
  quiet s -> wf_dict (structure s) = true ->
  Forall (fun p => valid_path cb p = true) keys ->
  (forall key, key ∈ keys -> leaf s (split (ns +:+ "/" +:+ short_name cb key))) ->
  exists fn' s',
    save_best_k cb ns keys fn s = (Ok fn', s')
    /\ quiet s' /\ wf_dict (structure s') = true
    /\ forall p, leaf s' p <-> leaf s p.
Proof.
  revert fn s; induction keys as [|key keys IH]; intros fn s Hq Hwf Hvalid Hleaves.
  - by exists fn, s.
  - inversion Hvalid as [|? ? Hkey Hkeys]; subst.
    cbn [save_best_k]. rewrite bind_run. unfold lift.
    rewrite get_full_model_name_eq, Hkey, bind_run. unfold upload.
    destruct (write_again (Upload (ns +:+ "/" +:+ short_name cb key) key)
                (ns +:+ "/" +:+ short_name cb key) (FileAttr key) s)
      as (s1 & -> & Hq1 & Hwf1 & Hl1); [done|done|done|apply Hleaves; left|].
    destruct (IH (fn ∪ {[short_name cb key]}) s1 Hq1 Hwf1 Hkeys)
      as (fn' & s' & Hrun & Hq' & Hwf' & Hl').
    { intros key' Hin. apply Hl1, Hleaves. by right. }
    exists fn', s'. split; [done|]. split; [done|]. split; [done|].
    intros p. by rewrite Hl', Hl1.
Qed.

Lemma exists_again (path : string) (s : run) :
  quiet s ->
  exists s',
    exists_ path s
    = (Ok (bool_decide (is_Some (lookup_path (split path) (Dict (structure s))))), s')
    /\ quiet s' /\ structure s' = structure s.
Proof.
  intros Hq. unfold exists_. rewrite bind_run.
  destruct (quiet_perform (Exists path) (structure s) s Hq)
    as (s1 & -> & Hq1 & Hst1 & _); [done|].
  exists s1. unfold gets. by rewrite Hst1.
Qed.

Lemma get_structure_again (s : run) :
  quiet s ->
  exists s', get_structure s = (Ok (Dict (structure s)), s')
             /\ quiet s' /\ structure s' = structure s.
Proof.
  intros Hq. unfold get_structure. rewrite bind_run.
  destruct (quiet_perform GetStructure (structure s) s Hq)
    as (s1 & -> & Hq1 & Hst1 & _); [done|].
  exists s1. unfold gets. by rewrite Hst1.
Qed.

Lemma drop_old_again (ns : string) (fn : gset string) (s : run) :
  quiet s -> wf_dict (structure s) = true ->
  is_attr (lookup_path (split ns) (Dict (structure s))) = false ->
  (forall name, remote_leaf (structure s) ns name = true -> name ∈ fn) ->
  exists s', drop_old ns fn s = (Ok tt, s')
             /\ quiet s' /\ structure s' = structure s.
Proof.
  intros Hq Hwf Hns Hsub. unfold drop_old. rewrite bind_run.
  destruct (exists_again ns s Hq) as (s1 & -> & Hq1 & Hst1).
  case_bool_decide as Hex; [|by exists s1].
  rewrite bind_run.
  destruct (get_structure_again s1 Hq1) as (s2 & -> & Hq2 & Hst2).
  rewrite bind_run. unfold lift.
  unfold _get_full_model_names_from_exp_structure.
  destruct Hex as [v Hv].
  apply reduce_getitem_lookup in Hv as Hred. rewrite Hst1, Hred.
  destruct v as [a|sub]; [by rewrite Hv in Hns|].
  assert (elements (list_to_set (_dict_paths sub None) ∖ fn : gset string) = []) as ->.
  { apply elements_empty_iff. intros f.
    rewrite elem_of_difference, elem_of_list_to_set.
    rewrite (uploaded_names_spec _ _ _ _ Hwf Hv). set_solver. }
  exists s2. split; [done|]. split; [done|]. by rewrite Hst2.
Qed.


Lemma log_best_paths (self : NeptuneLogger) (cb : ModelCheckpoint) (s s' : run) :
  wf_dict (structure s) = true ->
  log_best self cb s = (Ok tt, s') ->
  forall p, leaf s' p <->
            leaf s p \/ exists path, path ∈ best_model_paths self cb /\ p = split path.
Proof.
  intros Hwf Hrun. unfold log_best in Hrun. rewrite bind_run in Hrun.
  unfold best_model_paths.
  assert (exists s1,
    wf_dict (structure s1) = true
    /\ (forall p, leaf s1 p <->
           leaf s p \/ exists path,
             path ∈ (if truthy (best_model_path cb) then
                       [_construct_path_with_prefix self ["model/best_model_path"]]
                     else []) /\ p = split path)
    /\ match best_model_score cb with
       | Some x =>
           if score_truthy (Some x) then
             assign (_construct_path_with_prefix self ["model/best_model_score"])
               (FloatAttr x)
           else mret tt
       | None => mret tt
       end s1 = (Ok tt, s')) as (s1 & Hwf1 & Hl1 & Hrun1).
  { destruct (truthy (best_model_path cb)).
    - destruct (assign _ _ s) as [[[]|e] s1] eqn:Ha; [|done]. unfold assign in Ha.
      eapply perform_write_ok in Ha as (? & _ & Hl); [|done|done].
      exists s1. split; [done|]. split; [|done].
      intros p. rewrite Hl. split.
      + intros [?| ->]; [by left|right]. eexists. split; [left|done].
      + intros [?|(path & ->%list_elem_of_singleton & ->)]; auto.
    - exists s. split; [done|]. split; [|done]. intros p. split; [by left|].
      by intros [?|(path & ?%elem_of_nil & _)]. }
  clear Hrun.
  assert (forall p, leaf s' p <->
            leaf s1 p \/ exists path,
              path ∈ (if score_truthy (best_model_score cb) then
                        [_construct_path_with_prefix self ["model/best_model_score"]]
                      else []) /\ p = split path) as Hl'.
  { destruct (best_model_score cb) as [x|].
    - destruct (score_truthy (Some x)).
      + unfold assign in Hrun1.
        eapply perform_write_ok in Hrun1 as (? & _ & Hl); [|done|done].
        intros p. rewrite Hl. split.
        * intros [?| ->]; [by left|right]. eexists. split; [left|done].
        * intros [?|(path & ->%list_elem_of_singleton & ->)]; auto.
      + injection Hrun1 as <-. intros p. split; [by left|].
        by intros [?|(path & ?%elem_of_nil & _)].
    - injection Hrun1 as <-. intros p. split; [by left|].
      by intros [?|(path & ?%elem_of_nil & _)]. }
  intros p. rewrite Hl', Hl1. split.
  - intros [[?|(path & Hin & ->)]|(path & Hin & ->)]; [by left|right..];
      exists path; (split; [|done]); apply elem_of_app; auto.
  - intros [?|(path & [Hin|Hin]%elem_of_app & ->)]; [by left; left|left; right|right];
      by exists path.
Qed.

Lemma log_best_again (self : NeptuneLogger) (cb : ModelCheckpoint) (s : run) :
  quiet s -> wf_dict (structure s) = true ->
  (forall path, path ∈ best_model_paths self cb -> leaf s (split path)) ->
  exists s', log_best self cb s = (Ok tt, s')
             /\ forall p, leaf s' p <-> leaf s p.
Proof.
  intros Hq Hwf Hpaths. unfold log_best. rewrite bind_run.
  unfold best_model_paths in Hpaths.
  assert (exists s1,
    (if truthy (best_model_path cb) then
       assign (_construct_path_with_prefix self ["model/best_model_path"])
         (StringAttr (best_model_path cb))
     else mret tt) s = (Ok tt, s1)
    /\ quiet s1 /\ wf_dict (structure s1) = true
    /\ forall p, leaf s1 p <-> leaf s p) as (s1 & -> & Hq1 & Hwf1 & Hl1).
  { destruct (truthy (best_model_path cb)); [|by exists s].
    apply (write_again _ (_construct_path_with_prefix self ["model/best_model_path"])
             (StringAttr (best_model_path cb))); [done..|].
    apply Hpaths, elem_of_app. left. left. }
  destruct (best_model_score cb) as [x|]; [|by exists s1].
  destruct (score_truthy (Some x)); [|by exists s1].
  destruct (write_again
              (Assign (_construct_path_with_prefix self ["model/best_model_score"])
                 (FloatAttr x))
              (_construct_path_with_prefix self ["model/best_model_score"])
              (FloatAttr x) s1) as (s' & Hrun & _ & _ & Hl'); [done..| |].
  { apply Hl1, Hpaths, elem_of_app. right. left. }
  exists s'. split; [done|]. intros p. by rewrite Hl', Hl1.
Qed.

(** The checkpoints namespace itself is never written to as an attribute. *)
Lemma namespace_not_target (self : NeptuneLogger) (cb : ModelCheckpoint) :
  (forall name, split (checkpoints_namespace self)
                <> split (checkpoints_namespace self +:+ "/" +:+ name))
  /\ (forall path, path ∈ best_model_paths self cb ->
                   split (checkpoints_namespace self) <> split path).
Proof.
  split.
  - intros name Heq. rewrite split_app_slash in Heq.
    apply (f_equal length) in Heq. rewrite length_app in Heq.
    pose proof (split_nonempty name). destruct (split name); [done|]. simpl in Heq. lia.
  - intros path Hin Heq. unfold checkpoints_namespace, best_model_paths in *.
    assert (path = _construct_path_with_prefix self ["model/best_model_path"]
            \/ path = _construct_path_with_prefix self ["model/best_model_score"])
      as [-> | ->].
    { apply elem_of_app in Hin as [Hin|Hin].
      - destruct (truthy _); [|by apply elem_of_nil in Hin].
        apply list_elem_of_singleton in Hin. auto.
      - destruct (score_truthy _); [|by apply elem_of_nil in Hin].
        apply list_elem_of_singleton in Hin. auto. }
    + rewrite !split_construct in Heq. by apply app_inv_head in Heq.
    + rewrite !split_construct in Heq. by apply app_inv_head in Heq.
Qed.

(** After a call that returned, with checkpoint logging enabled, the same
    call on a quiet run returns and leaves the leaves where they are. *)
Lemma second_call_returns (self : NeptuneLogger) (cb : ModelCheckpoint) (s s1 : run) :
  _log_model_checkpoints self = true ->
  wf_dict (structure s) = true ->
  after_save_checkpoint self cb s = (Ok tt, s1) ->
  quiet s1 ->
  exists s2, after_save_checkpoint self cb s1 = (Ok tt, s2)
             /\ forall p, leaf s2 p <-> leaf s1 p.
Proof.
  intros Hlog Hwf Hrun Hq.
  destruct (synchronized self cb s s1 Hlog Hwf Hrun) as (Hwf1 & Hvalid & Hleaves & _).
  destruct (namespace_not_target self cb) as [Hns_up Hns_best].
  (* what the first call left behind *)
  rewrite after_save_checkpoint_phases in Hrun by done. rewrite bind_run in Hrun.
  destruct (save_best_k _ _ _ _ s) as [[fn0|e] sa] eqn:Hup; [|done].
  apply save_best_k_ok in Hup as (Hwfa & _ & _ & _ & _); [|done].
  rewrite bind_run in Hrun.
  destruct (drop_old _ _ sa) as [[[]|e] sb] eqn:Hdrop; [|done].
  assert (is_attr (lookup_path (split (checkpoints_namespace self))
                     (Dict (structure sb))) = false) as Hns_b.
  { apply not_true_is_false. intros Hl.
    destruct (drop_old_ok _ _ _ _ Hwfa Hdrop) as (_ & _ & _ & Hmono).
    apply Hmono in Hl. clear Hmono.
    unfold drop_old in Hdrop. rewrite bind_run in Hdrop.
    destruct (exists_ _ sa) as [[b|e] sc] eqn:Hex; [|done].
    apply exists_ok in Hex as (Hsc & _ & ->).
    destruct (lookup_path _ _) as [[a|sub]|] eqn:Hlk; try done.
    rewrite bool_decide_true in Hdrop by eauto. rewrite bind_run in Hdrop.
    destruct (get_structure sc) as [[v|e] sd] eqn:Hget; [|done].
    apply get_structure_ok in Hget as (_ & _ & ->).
    rewrite bind_run in Hdrop. unfold lift in Hdrop.
    unfold _get_full_model_names_from_exp_structure in Hdrop.
    rewrite Hsc in Hdrop. apply reduce_getitem_lookup in Hlk.
    by rewrite Hlk in Hdrop. }
  destruct (drop_old_ok _ _ _ _ Hwfa Hdrop) as (Hwfb & _ & _ & _).
  pose proof (log_best_paths self cb sb s1 Hwfb Hrun) as Hbest.
  assert (is_attr (lookup_path (split (checkpoints_namespace self))
                     (Dict (structure s1))) = false) as Hns1.
  { apply not_true_is_false. intros [Hl|(path & Hin & Heq)]%Hbest.
    - by rewrite Hl in Hns_b.
    - by apply (Hns_best path). }
  (* the second call *)
  rewrite after_save_checkpoint_phases by done. rewrite bind_run.
  destruct (save_best_k_again cb (checkpoints_namespace self) (supplied_paths cb) ∅ s1)
    as (fn & s2 & Hup2 & Hq2 & Hwf2 & Hl2); [done..| |].
  { intros key Hin. apply Hleaves. unfold desired_names.
    apply elem_of_list_to_set, list_elem_of_fmap. eauto. }
  pose proof Hup2 as Hup2'.
  apply save_best_k_ok in Hup2' as (_ & _ & Hfn & _ & _); [|done].
  rewrite Hup2, bind_run.
  destruct (drop_old_again (checkpoints_namespace self) fn s2) as (s3 & -> & Hq3 & Hst3);
    [done|done| | |].
  { apply not_true_is_false. rewrite Hl2. by rewrite Hns1. }
  { intros name Hl. unfold remote_leaf in Hl. apply Hl2 in Hl.
    apply Hleaves in Hl. subst fn. unfold desired_names in Hl. set_solver. }
  destruct (log_best_again self cb s3) as (s4 & -> & Hl4); [done|by rewrite Hst3| |].
  { intros path Hin. rewrite Hst3. apply Hl2, Hbest. right. eauto. }
  exists s4. split; [done|]. intros p. by rewrite Hl4, Hst3, Hl2.
Qed.

End AgainFacts.

(** * The claims *)

Import PyStr PyStrFacts Store RunFacts FailureFacts.




(** C2 (code): a desired name that is already a leaf under the namespace is
    uploaded again: the run records one upload for it, not none. *)
Lemma present_name_is_uploaded_again :
  remote_leaf (structure run_e1_e2_e3) (checkpoints_namespace logger_on) "e3.pt" = true
  /\ "e3.pt" ∈ desired_names scenario_B
  /\ filter is_upload
       (calls (after_save_checkpoint logger_on scenario_B run_e1_e2_e3).2)
     = [(Upload "training/model/checkpoints/e3.pt" "/ckpt/e3.pt", Done);
        (Upload "training/model/checkpoints/e4.pt" "/ckpt/e4.pt", Done)].
Proof.
  split; [reflexivity|]. split; [|by vm_compute].
  unfold desired_names. apply elem_of_list_to_set. cbn. left.
Qed.

(** C2 (amended): for every call with checkpoint logging enabled that
    returns, every supplied path is uploaded, once per occurrence and in
    order (the last checkpoint, then the best-k keys), whether or not its
    short name is already a leaf under the namespace; what is spared for the
    desired names is deletion: no delete is issued for any of them. *)
Theorem desired_names_are_uploaded_not_deleted
    (self : NeptuneLogger) (cb : ModelCheckpoint) (s s' : run) :
  _log_model_checkpoints self = true ->
  wf_dict (structure s) = true ->
  after_save_checkpoint self cb s = (Ok tt, s') ->
  exists evs,
    calls s' = calls s ++ evs
    /\ filter is_upload evs = map (fun p => (upload_of self cb p, Done)) (supplied_paths cb)
    /\ forall name out,
         name ∈ desired_names cb ->
         (Delete (checkpoints_namespace self +:+ "/" +:+ name), out) ∉ evs.
Proof.
  intros Hlog Hwf Hrun.
  destruct (synchronized self cb s s' Hlog Hwf Hrun)
    as (_ & _ & _ & enum & dropped & Hcalls & Henum & Hdropped).
  eexists. split; [exact Hcalls|]. split.
  - rewrite filter_app. rewrite filter_cons. cbn [is_upload].
    assert (forall l, filter is_upload (map (fun p => (upload_of self cb p, Done)) l)
                      = map (fun p => (upload_of self cb p, Done)) l) as ->.
    { induction l as [|p l IH]; [done|]. cbn [map]. rewrite filter_cons. cbn.
      by rewrite IH. }
    rewrite !filter_app.
    assert (filter is_upload enum = []) as ->
      by (destruct Henum as [-> | ->]; done).
    assert (forall l, filter is_upload
              (map (fun f => (Delete (checkpoints_namespace self +:+ "/" +:+ f), Done)) l)
              = []) as ->.
    { induction l as [|f l IH]; [done|]. cbn [map]. rewrite filter_cons. cbn. done. }
    assert (filter is_upload (best_model_calls self cb) = []) as ->.
    { unfold best_model_calls. rewrite filter_app.
      destruct (truthy _); destruct (best_model_score cb) as [x|];
        try destruct (score_truthy _); done. }
    by rewrite !app_nil_r.
  - intros name out Hname Hin.
    apply elem_of_app in Hin as [Hin|Hin].
    { apply list_elem_of_fmap in Hin as (p & [=] & _). }
    apply elem_of_cons in Hin as [[=]|Hin].
    apply elem_of_app in Hin as [Hin|Hin].
    { destruct Henum as [-> | ->].
      - by apply elem_of_nil in Hin.
      - by apply list_elem_of_singleton in Hin. }
    apply elem_of_app in Hin as [Hin|Hin].
    + apply list_elem_of_fmap in Hin as (f & [= Hf _] & Hfin).
      apply append_inv_head, (append_inv_head "/") in Hf. subst f.
      by apply (Hdropped name).
    + unfold best_model_calls in Hin.
      apply elem_of_app in Hin as [Hin|Hin].
      * destruct (truthy _); [|by apply elem_of_nil in Hin].
        by apply list_elem_of_singleton in Hin.
      * destruct (best_model_score cb) as [x|]; [|by apply elem_of_nil in Hin].
        destruct (score_truthy _); [|by apply elem_of_nil in Hin].
        by apply list_elem_of_singleton in Hin.
Qed.

Lemma desired_names_are_uploaded_not_deleted_witness :
  exists evs,
    calls (after_save_checkpoint logger_on scenario_B run_e1_e2_e3).2
      = calls run_e1_e2_e3 ++ evs
    /\ filter is_upload evs
       = map (fun p => (upload_of logger_on scenario_B p, Done)) (supplied_paths scenario_B)
    /\ forall name out,
         name ∈ desired_names scenario_B ->
         (Delete (checkpoints_namespace logger_on +:+ "/" +:+ name), out) ∉ evs.
Proof.
  apply (desired_names_are_uploaded_not_deleted logger_on scenario_B run_e1_e2_e3).
  - reflexivity.
  - reflexivity.
  - vm_compute. reflexivity.
Defined.

(** C3 (code): the validation is interleaved with the uploads. With a valid
    last checkpoint and a best-k key outside the directory the hook raises
    the error for the key after it has uploaded the last checkpoint. *)
Lemma upload_precedes_invalid_path_error :
  valid_path stray_key "/other/e3.pt" = false
  /\ (after_save_checkpoint logger_on stray_key fresh_run).1
     = Raise (ValueError "/other/e3.pt was expected to start with /ckpt/.")
  /\ calls (after_save_checkpoint logger_on stray_key fresh_run).2
     = [(Upload "training/model/checkpoints/e5.pt" "/ckpt/e5.pt", Done)]
  /\ remote_leaf (structure (after_save_checkpoint logger_on stray_key fresh_run).2)
       (checkpoints_namespace logger_on) "e5.pt" = true.
Proof. by vm_compute. Qed.

(** C3 (amended): for every call with checkpoint logging enabled in which
    some supplied path does not start with the checkpoint directory followed
    by the separator, the call raises. Up to the first such path (the last
    checkpoint comes first, then the best-k keys in order) the valid paths
    are uploaded; then the invalid-path error is raised, unless one of those
    uploads failed, whose store error is raised instead. Nothing else has
    been performed on the run: no delete, and no upload of the invalid path
    or of a path after it. *)
Theorem invalid_path_raises (self : NeptuneLogger) (cb : ModelCheckpoint) (s : run) :
  _log_model_checkpoints self = true ->
  List.Exists (fun p => valid_path cb p = false) (supplied_paths cb) ->
  exists pre bad post,
    supplied_paths cb = pre ++ bad :: post
    /\ Forall (fun p => valid_path cb p = true) pre
    /\ valid_path cb bad = false
    /\ let r := (after_save_checkpoint self cb s).1 in
       let s' := (after_save_checkpoint self cb s).2 in
       (r = Raise (ValueError (invalid_path_message cb bad))
        /\ calls s' = calls s ++ map (fun p => (upload_of self cb p, Done)) pre)
       \/ (exists e pre1 p pre2,
             pre = pre1 ++ p :: pre2
             /\ r = Raise (StoreError e)
             /\ calls s' = calls s
                  ++ map (fun p => (upload_of self cb p, Done)) pre1
                  ++ [(upload_of self cb p, Failed e)]).
Proof.
  intros Hlog Hex.
  destruct (first_invalid cb _ Hex) as (pre & bad & post & Heq & Hpre & Hbad).
  exists pre, bad, post. do 3 (split; [done|]). cbn zeta.
  rewrite after_save_checkpoint_phases by done. rewrite bind_run, Heq.
  pose proof (save_best_k_invalid cb (checkpoints_namespace self) pre bad post ∅ s Hpre Hbad)
    as Hcases.
  cbn zeta in Hcases.
  destruct (save_best_k _ _ _ _ s) as [r s1]. simpl in Hcases.
  destruct Hcases as [[-> Hcalls]|(e & pre1 & p & pre2 & -> & -> & Hcalls)].
  - left. done.
  - right. exists e, pre1, p, pre2. done.
Qed.

Lemma invalid_path_raises_witness :
  exists pre bad post,
    supplied_paths stray_key = pre ++ bad :: post
    /\ Forall (fun p => valid_path stray_key p = true) pre
    /\ valid_path stray_key bad = false
    /\ let r := (after_save_checkpoint logger_on stray_key fresh_run).1 in
       let s' := (after_save_checkpoint logger_on stray_key fresh_run).2 in
       (r = Raise (ValueError (invalid_path_message stray_key bad))
        /\ calls s' = calls fresh_run
             ++ map (fun p => (upload_of logger_on stray_key p, Done)) pre)
       \/ (exists e pre1 p pre2,
             pre = pre1 ++ p :: pre2
             /\ r = Raise (StoreError e)
             /\ calls s' = calls fresh_run
                  ++ map (fun p => (upload_of logger_on stray_key p, Done)) pre1
                  ++ [(upload_of logger_on stray_key p, Failed e)]).
Proof.
  apply (invalid_path_raises logger_on stray_key fresh_run).
  - reflexivity.
  - apply Exists_cons_tl, Exists_cons_hd. reflexivity.
Defined.

(** C4: two calls in succession with the same logger and the same callback,
    nothing else touching the run in between. When the first call has
    returned, the second returns as well unless the transport fails one of
    its operations, and whenever it returns the leaves under the checkpoints
    namespace are the leaves the first call left. *)
Theorem sync_idempotent (self : NeptuneLogger) (cb : ModelCheckpoint) (s s1 : run) :
  wf_dict (structure s) = true ->
  after_save_checkpoint self cb s = (Ok tt, s1) ->
  (quiet s1 -> exists s2, after_save_checkpoint self cb s1 = (Ok tt, s2))
  /\ forall s2,
       after_save_checkpoint self cb s1 = (Ok tt, s2) ->
       forall name,
         remote_leaf (structure s2) (checkpoints_namespace self) name
         = remote_leaf (structure s1) (checkpoints_namespace self) name.
Proof.
  intros Hwf Hrun1.
  destruct (_log_model_checkpoints self) eqn:Hlog.
  - split.
    + intros Hq.
      destruct (AgainFacts.second_call_returns self cb s s1 Hlog Hwf Hrun1 Hq)
        as (s2 & Hrun2 & _).
      by exists s2.
    + intros s2 Hrun2 name.
      destruct (synchronized self cb s s1 Hlog Hwf Hrun1) as (Hwf1 & _ & Hl1 & _).
      destruct (synchronized self cb s1 s2 Hlog Hwf1 Hrun2) as (_ & _ & Hl2 & _).
      apply eq_true_iff_eq. by rewrite Hl1, Hl2.
  - unfold after_save_checkpoint. rewrite Hlog. split; [by exists s1|].
    by intros s2 [= <-].
Qed.

Lemma sync_idempotent_witness :
  (quiet (after_save_checkpoint logger_on scenario_B run_e1_e2_e3).2 ->
   exists s2,
     after_save_checkpoint logger_on scenario_B
       (after_save_checkpoint logger_on scenario_B run_e1_e2_e3).2 = (Ok tt, s2))
  /\ forall s2,
       after_save_checkpoint logger_on scenario_B
         (after_save_checkpoint logger_on scenario_B run_e1_e2_e3).2 = (Ok tt, s2) ->
       forall name,
         remote_leaf (structure s2) (checkpoints_namespace logger_on) name
         = remote_leaf
             (structure (after_save_checkpoint logger_on scenario_B run_e1_e2_e3).2)
             (checkpoints_namespace logger_on) name.
Proof.
  apply (sync_idempotent logger_on scenario_B run_e1_e2_e3).
  - reflexivity.
  - vm_compute. reflexivity.
Defined.

(** Scenario B of the specification, twice: the second call uploads e3 and
    e4 again, deletes nothing, and the tree is the one the first call left. *)
Example scenario_B_twice :
  let s1 := (after_save_checkpoint logger_on scenario_B run_e1_e2_e3).2 in
  let s2 := (after_save_checkpoint logger_on scenario_B s1).2 in
  (after_save_checkpoint logger_on scenario_B s1).1 = Ok tt
  /\ structure s2 = structure s1
  /\ _dict_paths
       (DItem "e3.pt" (Attr (FileAttr "/ckpt/e3.pt"))
       (DItem "e4.pt" (Attr (FileAttr "/ckpt/e4.pt")) DNil)) None
     = ["e3.pt"; "e4.pt"]
  /\ lookup_path ["training"; "model"; "checkpoints"] (Dict (structure s1))
     = Some (Dict (DItem "e3.pt" (Attr (FileAttr "/ckpt/e3.pt"))
                  (DItem "e4.pt" (Attr (FileAttr "/ckpt/e4.pt")) DNil))).
Proof. by vm_compute. Qed.

(** With no desired name and an attribute where the namespace should be, the
    enumeration fails on the attribute: the call raises, and no remote
    operation has failed. *)
Example namespace_attribute_raises :
  after_save_checkpoint logger_on scenario_C run_namespace_is_attribute
  = (Raise AttributeError,
     {| structure := structure run_namespace_is_attribute;
        calls := [(Exists "training/model/checkpoints", Done); (GetStructure, Done)];
        faults := [] |}).
Proof. by vm_compute. Qed.

(** C5 (code): with checkpoint logging disabled nothing is deleted: with an
    empty best-k mapping and no last checkpoint the leaves that were under
    the namespace are still there after the call. *)
Lemma disabled_logger_deletes_nothing :
  best_k_models scenario_C = []
  /\ last_model_path scenario_C = ""
  /\ (after_save_checkpoint logger_off scenario_C run_e1_e2_e3).1 = Ok tt
  /\ remote_leaf (structure (after_save_checkpoint logger_off scenario_C run_e1_e2_e3).2)
       (checkpoints_namespace logger_off) "e1.pt" = true.
Proof. by vm_compute. Qed.

(** C5 (amended): for every call with checkpoint logging enabled in which
    the best-k mapping is empty and there is no last checkpoint, the desired
    set is empty, and when the call returns no leaf is left under the
    checkpoints namespace. *)
Theorem nothing_kept_empties_namespace
    (self : NeptuneLogger) (cb : ModelCheckpoint) (s s' : run) :
  _log_model_checkpoints self = true ->
  wf_dict (structure s) = true ->
  best_k_models cb = [] ->
  last_model_path cb = "" ->
  after_save_checkpoint self cb s = (Ok tt, s') ->
  desired_names cb = ∅
  /\ forall name, remote_leaf (structure s') (checkpoints_namespace self) name = false.
Proof.
  intros Hlog Hwf Hbest Hlast Hrun.
  assert (desired_names cb = ∅) as Hempty.
  { unfold desired_names, supplied_paths. by rewrite Hbest, Hlast. }
  split; [done|]. intros name.
  destruct (synchronized self cb s s' Hlog Hwf Hrun) as (_ & _ & Hl & _).
  apply not_true_is_false. rewrite Hl, Hempty. set_solver.
Qed.

Lemma nothing_kept_empties_namespace_witness :
  desired_names scenario_C = ∅
  /\ forall name,
       remote_leaf (structure (after_save_checkpoint logger_on scenario_C run_e1_e2_e3).2)
         (checkpoints_namespace logger_on) name = false.
Proof.
  apply (nothing_kept_empties_namespace logger_on scenario_C run_e1_e2_e3).
  - reflexivity.
  - reflexivity.
  - reflexivity.
  - reflexivity.
  - vm_compute. reflexivity.
Defined.

(** C6 (code): scenario A on a logger with checkpoint logging disabled and
    an empty run: nothing is uploaded, e5.pt is not a leaf after the call. *)
Lemma disabled_logger_scenario_A :
  (after_save_checkpoint logger_off scenario_A fresh_run).1 = Ok tt
  /\ remote_leaf (structure (after_save_checkpoint logger_off scenario_A fresh_run).2)
       (checkpoints_namespace logger_off) "e5.pt" = false
  /\ remote_leaf (structure (after_save_checkpoint logger_off scenario_A fresh_run).2)
       (checkpoints_namespace logger_off) "e3.pt" = false.
Proof. by vm_compute. Qed.

(** C6 (amended): the desired names form a set: a last checkpoint that is
    also a best-k key adds no element to the names of the keys. In
    particular, for every call with checkpoint logging enabled, with
    directory /ckpt, last checkpoint /ckpt/e5.pt, best-k keys /ckpt/e3.pt
    and /ckpt/e5.pt and no leaf under the checkpoints namespace, the desired
    names are the two names e5.pt and e3.pt, and when the call returns they
    are exactly the leaves under the namespace. *)
Theorem scenario_A_leaves (self : NeptuneLogger) (cb : ModelCheckpoint) (s s' : run) :
  _log_model_checkpoints self = true ->
  wf_dict (structure s) = true ->
  dirpath cb = "/ckpt" ->
  last_model_path cb = "/ckpt/e5.pt" ->
  map fst (best_k_models cb) = ["/ckpt/e3.pt"; "/ckpt/e5.pt"] ->
  (forall name, remote_leaf (structure s) (checkpoints_namespace self) name = false) ->
  after_save_checkpoint self cb s = (Ok tt, s') ->
  (forall cb' : ModelCheckpoint,
     last_model_path cb' ∈ map fst (best_k_models cb') ->
     desired_names cb'
     = list_to_set (map (short_name cb') (map fst (best_k_models cb'))))
  /\ desired_names cb = {[ "e5.pt"; "e3.pt" ]}
  /\ size (desired_names cb) = 2
  /\ forall name,
       remote_leaf (structure s') (checkpoints_namespace self) name = true
       <-> name = "e5.pt" \/ name = "e3.pt".
Proof.
  intros Hlog Hwf Hdir Hlast Hkeys _ Hrun.
  assert (desired_names cb = {[ "e5.pt"; "e3.pt" ]}) as Hdesired.
  { unfold desired_names, supplied_paths, short_name.
    rewrite Hlast, Hkeys, Hdir. cbn. set_solver. }
  split; [|split; [done|split]].
  - intros cb' Hin. unfold desired_names, supplied_paths.
    destruct (truthy (last_model_path cb')); [|done].
    rewrite map_app, list_to_set_app_L. cbn [map list_to_set].
    apply (list_elem_of_fmap_2 (short_name cb')) in Hin.
    apply (elem_of_list_to_set (C := gset string)) in Hin. set_solver.
  - rewrite Hdesired. rewrite size_union by set_solver. by rewrite !size_singleton.
  - intros name.
    destruct (synchronized self cb s s' Hlog Hwf Hrun) as (_ & _ & Hl & _).
    rewrite Hl, Hdesired. set_solver.
Qed.

Lemma scenario_A_leaves_witness :
  (forall cb' : ModelCheckpoint,
     last_model_path cb' ∈ map fst (best_k_models cb') ->
     desired_names cb'
     = list_to_set (map (short_name cb') (map fst (best_k_models cb'))))
  /\ desired_names scenario_A = {[ "e5.pt"; "e3.pt" ]}
  /\ size (desired_names scenario_A) = 2
  /\ forall name,
       remote_leaf (structure (after_save_checkpoint logger_on scenario_A fresh_run).2)
         (checkpoints_namespace logger_on) name = true
       <-> name = "e5.pt" \/ name = "e3.pt".
Proof.
  apply (scenario_A_leaves logger_on scenario_A fresh_run).
  - reflexivity.
  - reflexivity.
  - reflexivity.
  - reflexivity.
  - reflexivity.
  - intros name. reflexivity.
  - vm_compute. reflexivity.
Defined.

(** C7: on a well-formed structure that has a namespace at the given path,
    the enumeration returns (it is a total function and raises nothing) the
    set of the slash-joined key paths, relative to the namespace, that lead
    to an attribute; the generator yields each of them once, and yields no
    path of a namespace. *)
Theorem uploaded_names_are_the_leaves (exp_structure : value) (namespace : string) (sub : dict) :
  wf_value exp_structure = true ->
  lookup_path (split namespace) exp_structure = Some (Dict sub) ->
  exists names,
    _get_full_model_names_from_exp_structure exp_structure namespace = Ok names
    /\ names = list_to_set (_dict_paths sub None)
    /\ NoDup (_dict_paths sub None)
    /\ (forall name,
          name ∈ names <->
          exists ks, ks <> [] /\ name = join ks
                     /\ is_attr (lookup_path (split namespace ++ ks) exp_structure) = true)
    /\ (forall ks d,
          ks <> [] ->
          lookup_path (split namespace ++ ks) exp_structure = Some (Dict d) ->
          join ks ∉ names).
Proof.
  intros Hwf Hns.
  destruct (StoreFacts.wf_lookup_path _ _ _ Hwf Hns) as [Hsub _]. simpl in Hsub.
  assert (forall name,
            name ∈ (list_to_set (_dict_paths sub None) : gset string) <->
            exists ks, ks <> [] /\ name = join ks
                       /\ is_attr (lookup_path (split namespace ++ ks) exp_structure) = true)
    as Hnames.
  { intros name. rewrite elem_of_list_to_set.
    rewrite (EnumFacts.dict_paths_enumerates sub Hsub None name).
    unfold build_path. split; intros (ks & Hne & Hname & Hl); exists ks.
    - by rewrite StoreFacts.lookup_path_app, Hns.
    - by rewrite StoreFacts.lookup_path_app, Hns in Hl. }
  exists (list_to_set (_dict_paths sub None)).
  split; [|split; [done|split; [|split; [done|]]]].
  - unfold _get_full_model_names_from_exp_structure.
    apply EnumFacts.reduce_getitem_lookup in Hns. by rewrite Hns.
  - by apply EnumFacts.dict_paths_NoDup.
  - intros ks d Hne Hd (ks' & Hne' & Heq & Hl)%Hnames.
    destruct (StoreFacts.wf_lookup_path _ _ _ Hwf Hd) as [_ Hfree].
    apply Forall_app in Hfree as [_ Hfree].
    destruct (lookup_path (split namespace ++ ks') exp_structure) as [v|] eqn:Hl'; [|done].
    destruct (StoreFacts.wf_lookup_path _ _ _ Hwf Hl') as [_ Hfree'].
    apply Forall_app in Hfree' as [_ Hfree'].
    assert (ks = ks') as <- by (by apply (EnumFacts.build_path_inj None)).
    rewrite Hd in Hl'. by injection Hl' as <-.
Qed.

Lemma uploaded_names_are_the_leaves_witness :
  exists names,
    _get_full_model_names_from_exp_structure (Dict (structure run_e1_e2_e3))
      "training/model/checkpoints" = Ok names
    /\ names
       = list_to_set
           (_dict_paths
              (DItem "e1.pt" (Attr (FileAttr "/ckpt/e1.pt"))
              (DItem "e2.pt" (Attr (FileAttr "/ckpt/e2.pt"))
              (DItem "e3.pt" (Attr (FileAttr "/ckpt/e3.pt")) DNil))) None)
    /\ NoDup
         (_dict_paths
            (DItem "e1.pt" (Attr (FileAttr "/ckpt/e1.pt"))
            (DItem "e2.pt" (Attr (FileAttr "/ckpt/e2.pt"))
            (DItem "e3.pt" (Attr (FileAttr "/ckpt/e3.pt")) DNil))) None)
    /\ (forall name,
          name ∈ names <->
          exists ks, ks <> [] /\ name = join ks
                     /\ is_attr (lookup_path (split "training/model/checkpoints" ++ ks)
                                   (Dict (structure run_e1_e2_e3))) = true)
    /\ (forall ks d,
          ks <> [] ->
          lookup_path (split "training/model/checkpoints" ++ ks)
            (Dict (structure run_e1_e2_e3)) = Some (Dict d) ->
          join ks ∉ names).
Proof.
  apply (uploaded_names_are_the_leaves (Dict (structure run_e1_e2_e3))
           "training/model/checkpoints").
  - reflexivity.
  - reflexivity.
Defined.

(** The generator on a nested structure: one path per attribute, in the
    order of the items, none for the namespaces. *)
Example dict_paths_nested :
  _dict_paths
    (DItem "a" (Dict (DItem "b" (Attr (FileAttr "x"))
                     (DItem "c" (Dict DNil) DNil)))
    (DItem "d" (Attr (FileAttr "y")) DNil)) None
  = ["a/b"; "d"].
Proof. reflexivity. Qed.

(** C8: in every call, when a remote operation fails with some error, the
    call raises exactly that store error; the failed operation is the last
    one the run records (it is not tried again and nothing is done after
    it), the operations before it have all succeeded, and the tree is the
    one they produced (nothing is undone). *)
Theorem store_errors_propagate (self : NeptuneLogger) (cb : ModelCheckpoint) (s : run) :
  exists evs,
    calls (after_save_checkpoint self cb s).2 = calls s ++ evs
    /\ structure (after_save_checkpoint self cb s).2 = replay evs (structure s)
    /\ forall o e,
         (o, Failed e) ∈ evs ->
         (after_save_checkpoint self cb s).1 = Raise (StoreError e)
         /\ exists evs0, evs = evs0 ++ [(o, Failed e)] /\ forallb is_done evs0 = true.
Proof.
  destruct (propagating_after_save_checkpoint self cb s) as (evs & Hcalls & Hst & Hres).
  exists evs. do 2 (split; [done|]). intros o e Hin.
  assert (forall l, forallb is_done l = true -> (o, Failed e) ∉ l) as Hdone.
  { intros l Hl Hin'. rewrite forallb_forall in Hl.
    apply list_elem_of_In in Hin'. by apply Hl in Hin'. }
  destruct ((after_save_checkpoint self cb s).1) as [[]|x].
  - by destruct (Hdone evs Hres).
  - destruct x as [| | | |e']; try by destruct (Hdone evs Hres).
    destruct Hres as (evs0 & o' & -> & Hdone0).
    apply elem_of_app in Hin as [Hin|Hin]; [by destruct (Hdone evs0 Hdone0)|].
    apply list_elem_of_singleton in Hin. injection Hin as <- <-.
    split; [done|]. by exists evs0.
Qed.

(** A delete that fails after another has succeeded: the error reaches the
    caller, the first delete stays done, the second is recorded once. *)
Example failing_delete_is_raised :
  after_save_checkpoint logger_on scenario_C run_failing_fourth
  = (Raise (StoreError (Fault 503)),
     {| structure :=
          DItem "training"
            (Dict (DItem "model"
               (Dict (DItem "checkpoints"
                  (Dict (DItem "e1.pt" (Attr (FileAttr "/ckpt/e1.pt"))
                        (DItem "e2.pt" (Attr (FileAttr "/ckpt/e2.pt")) DNil)))
                  DNil))
               DNil))
            DNil;
        calls := [(Exists "training/model/checkpoints", Done);
                  (GetStructure, Done);
                  (Delete "training/model/checkpoints/e3.pt", Done);
                  (Delete "training/model/checkpoints/e1.pt", Failed (Fault 503))];
        faults := [] |}).
Proof. by vm_compute. Qed.

Lemma startswith_cancel (a b c : string) :
  startswith (a +:+ b) (a +:+ c) = startswith b c.
Proof.
  induction a as [|x a IH]; [done|].
  change (startswith (String x (a +:+ b)) (String x (a +:+ c)) = startswith b c).
  cbn [startswith]. by rewrite Ascii.eqb_refl.
Qed.

(** C9 (code): a path with a doubled separator after the directory is valid,
    and its short name starts with the separator (here even with the
    directory and the separator). *)
Lemma short_name_may_start_with_separator :
  startswith "/ckpt//ckpt/e5.pt" (dirpath scenario_A +:+ "/") = true
  /\ _get_full_model_name "/ckpt//ckpt/e5.pt" scenario_A = Ok "/ckpt/e5.pt"
  /\ startswith "/ckpt/e5.pt" "/" = true
  /\ startswith "/ckpt/e5.pt" (dirpath scenario_A +:+ "/") = true.
Proof. by vm_compute. Qed.

(** C9 (amended): for every path that starts with the checkpoint directory
    followed by the separator, [_get_full_model_name] returns a short name,
    and the directory, the separator and the short name make up the path
    again; the short name starts with the separator exactly when the path
    has a second separator right after the first. *)
Theorem short_name_roundtrip (model_path : string) (cb : ModelCheckpoint) :
  startswith model_path (dirpath cb +:+ "/") = true ->
  exists name,
    _get_full_model_name model_path cb = Ok name
    /\ dirpath cb +:+ "/" +:+ name = model_path
    /\ (startswith name "/" = true <-> startswith model_path (dirpath cb +:+ "//") = true).
Proof.
  intros Hstart. destruct (startswith_inv _ _ Hstart) as [r ->].
  exists r. split; [|split].
  - unfold _get_full_model_name. by rewrite Hstart, slice_from_app.
  - by rewrite append_assoc.
  - rewrite append_assoc.
    change (dirpath cb +:+ "//") with (dirpath cb +:+ "/" +:+ "/").
    by rewrite !startswith_cancel.
Qed.

Lemma short_name_roundtrip_witness :
  exists name,
    _get_full_model_name "/ckpt/e5.pt" scenario_A = Ok name
    /\ dirpath scenario_A +:+ "/" +:+ name = "/ckpt/e5.pt"
    /\ (startswith name "/" = true
        <-> startswith "/ckpt/e5.pt" (dirpath scenario_A +:+ "//") = true).
Proof.
  apply (short_name_roundtrip "/ckpt/e5.pt" scenario_A). reflexivity.
Defined.

(** C10: with checkpoint logging disabled the call returns at once and
    leaves the run as it was: its tree, the record of the operations
    performed on it (no upload, delete, existence check, enumeration or
    assignment is added) and what is still to come from the transport. *)
Theorem disabled_logger_is_a_no_op (self : NeptuneLogger) (cb : ModelCheckpoint) (s : run) :
  _log_model_checkpoints self = false ->
  after_save_checkpoint self cb s = (Ok tt, s).
Proof. intros Hlog. unfold after_save_checkpoint. by rewrite Hlog. Qed.

Lemma disabled_logger_is_a_no_op_witness :
  after_save_checkpoint logger_off scenario_A run_failing_fourth
  = (Ok tt, run_failing_fourth).
Proof.
  apply (disabled_logger_is_a_no_op logger_off scenario_A run_failing_fourth).
  reflexivity.
Defined.

(** * Further properties of the code *)

(** ** The attributes of the tree under the remote operations *)

Module ContentFacts.
Import PyStr PyStrFacts PyDict PyDictFacts Store StoreFacts EnumFacts RunFacts.

Lemma attr_at_cons (k : string) (p : list string) (d : dict) :
  attr_at (k :: p) d =
  match get k d with
  | Some (Attr a) => match p with [] => Some a | _ :: _ => None end
  | Some (Dict sub) => attr_at p sub
  | None => None
  end.
Proof.
  unfold attr_at. rewrite lookup_path_cons.
  destruct (get k d) as [[a|sub]|]; [|done..]. by destruct p.
Qed.

Lemma attr_at_nil (d : dict) : attr_at [] d = None.
Proof. done. Qed.

Lemma attr_at_empty (p : list string) : attr_at p DNil = None.
Proof. by destruct p. Qed.

Lemma attr_at_is_attr (p : list string) (d : dict) :
  is_attr (lookup_path p (Dict d)) = true <-> is_Some (attr_at p d).
Proof.
  unfold attr_at. destruct (lookup_path p (Dict d)) as [[a|sub]|]; simpl;
    split; try done; try (by intros [? [=]]); eauto.
Qed.

(** Writing an attribute sets it and changes no other attribute. *)
Lemma set_path_attrs (ks : list string) (a : attr) (d d' : dict) :
  set_path ks a d = Some d' ->
  forall p, attr_at p d' = if bool_decide (p = ks) then Some a else attr_at p d.
Proof.
  revert d d'; induction ks as [|k ks IH]; intros d d' Hset p; [done|].
  destruct ks as [|k1 ks].
  - simpl in Hset.
    assert (d' = setitem k (Attr a) d /\ forall sub, get k d <> Some (Dict sub)) as [-> Hk].
    { destruct (get k d) as [[|]|]; naive_solver. }
    destruct p as [|k0 p]; [by rewrite bool_decide_false|].
    rewrite !attr_at_cons, get_setitem.
    destruct (String.eqb_spec k0 k) as [->|Hne].
    + destruct p as [|k1 p].
      * by rewrite bool_decide_true.
      * rewrite bool_decide_false by congruence.
        destruct (get k d) as [[a0|sub]|]; [done| |done]. by destruct (Hk sub).
    + by rewrite bool_decide_false by congruence.
  - rewrite set_path_step in Hset.
    assert (exists sub sub', set_path (k1 :: ks) a sub = Some sub'
              /\ d' = setitem k (Dict sub') d
              /\ (get k d = Some (Dict sub) \/ (get k d = None /\ sub = DNil)))
      as (sub & sub' & Hsub & -> & Hk).
    { destruct (get k d) as [[a0|sub]|] eqn:Hget; [done| |].
      - destruct (set_path (k1 :: ks) a sub) as [sub'|] eqn:Hs; [|done].
        injection Hset as <-. exists sub, sub'. auto.
      - destruct (set_path (k1 :: ks) a DNil) as [sub'|] eqn:Hs; [|done].
        injection Hset as <-. exists DNil, sub'. auto. }
    specialize (IH _ _ Hsub).
    destruct p as [|k0 p]; [by rewrite bool_decide_false|].
    rewrite !attr_at_cons, get_setitem.
    destruct (String.eqb_spec k0 k) as [->|Hne].
    + rewrite IH. destruct Hk as [->|[-> ->]].
      * apply (f_equal (fun b : bool => if b then Some a else attr_at p sub)).
        apply bool_decide_ext. split; congruence.
      * rewrite attr_at_empty.
        apply (f_equal (fun b : bool => if b then Some a else None)).
        apply bool_decide_ext. split; congruence.
    + by rewrite bool_decide_false by congruence.
Qed.

(** Deleting an attribute removes it and changes no other attribute. *)
Lemma pop_path_attrs (ks : list string) (d d' : dict) :
  wf_dict d = true -> pop_path ks d = Some d' ->
  forall p, attr_at p d' = if bool_decide (p = ks) then None else attr_at p d.
Proof.
  revert d d'; induction ks as [|k ks IH]; intros d d' Hwf Hpop; [done|].
  destruct ks as [|k1 ks].
  - simpl in Hpop.
    destruct (get k d) as [[a0|]|] eqn:Hget; try done. injection Hpop as <-.
    intros p. destruct p as [|k0 p]; [by rewrite bool_decide_false|].
    rewrite !attr_at_cons, get_delitem by done.
    destruct (String.eqb_spec k0 k) as [->|Hne].
    + rewrite Hget. destruct p.
      * by rewrite bool_decide_true.
      * by rewrite bool_decide_false.
    + by rewrite bool_decide_false by congruence.
  - rewrite pop_path_step in Hpop.
    destruct (get k d) as [[a0|sub]|] eqn:Hget; try done.
    destruct (pop_path (k1 :: ks) sub) as [sub'|] eqn:Hs; [|done].
    destruct (wf_get _ _ _ Hwf Hget) as [Hk Hsub].
    specialize (IH _ _ Hsub Hs).
    intros p. destruct p as [|k0 p]; [by rewrite bool_decide_false|].
    rewrite !attr_at_cons.
    destruct (String.eqb_spec k0 k) as [->|Hne].
    + rewrite Hget.
      assert (match get k d' with
              | Some (Attr a) => match p with [] => Some a | _ :: _ => None end
              | Some (Dict sub0) => attr_at p sub0
              | None => None
              end = attr_at p sub') as ->.
      { destruct sub' as [|k' v' sub']; injection Hpop as <-.
        - rewrite get_delitem, String.eqb_refl by done. by rewrite attr_at_empty.
        - by rewrite get_setitem, String.eqb_refl. }
      rewrite IH.
      apply (f_equal (fun b : bool => if b then None else attr_at p sub)).
      apply bool_decide_ext. split; congruence.
    + rewrite bool_decide_false by congruence.
      destruct sub' as [|k' v' sub']; injection Hpop as <-.
      * rewrite get_delitem by done. by destruct (String.eqb_spec k0 k).
      * rewrite get_setitem. by destruct (String.eqb_spec k0 k).
Qed.

(** One accepted operation: the invariant stays, and the attributes change
    as [touch] says. *)
Lemma effect_attrs (o : op) (d d' : dict) :
  wf_dict d = true -> effect o d = Some d' ->
  wf_dict d' = true
  /\ forall p, attr_at p d' = match touch p (o, Done) with
                              | Some r => r
                              | None => attr_at p d
                              end.
Proof.
  intros Hwf Heff. destruct o as [path l|path a|path| |]; simpl in Heff.
  - split; [eapply set_path_wf; eauto using split_slash_free|].
    intros p. rewrite (set_path_attrs _ _ _ _ Heff p). cbn [touch].
    rewrite (bool_decide_ext (p = split path) (split path = p)) by (split; congruence).
    by case_bool_decide.
  - split; [eapply set_path_wf; eauto using split_slash_free|].
    intros p. rewrite (set_path_attrs _ _ _ _ Heff p). cbn [touch].
    rewrite (bool_decide_ext (p = split path) (split path = p)) by (split; congruence).
    by case_bool_decide.
  - destruct (pop_path_leaves _ _ _ Hwf Heff) as [Hwf' _]. split; [done|].
    intros p. rewrite (pop_path_attrs _ _ _ Hwf Heff p). cbn [touch].
    rewrite (bool_decide_ext (p = split path) (split path = p)) by (split; congruence).
    by case_bool_decide.
  - by injection Heff as <-.
  - by injection Heff as <-.
Qed.

(** A recorded sequence: the invariant stays, and each attribute is what the
    last operation that touched it made of it. *)
Lemma replay_strict_attrs (evs : list (op * outcome)) (d d' : dict) :
  wf_dict d = true -> replay_strict evs d = Some d' ->
  wf_dict d' = true
  /\ forall p, attr_at p d' = match last_touch p evs with
                              | Some r => r
                              | None => attr_at p d
                              end.
Proof.
  revert d; induction evs as [|[o out] evs IH]; intros d Hwf Hrep.
  - injection Hrep as <-. by split.
  - destruct out as [|e]; cbn [replay_strict] in Hrep.
    + destruct (effect o d) as [d1|] eqn:Heff; [|done].
      destruct (effect_attrs _ _ _ Hwf Heff) as [Hwf1 Hattrs1].
      destruct (IH _ Hwf1 Hrep) as [Hwf' Hattrs]. split; [done|].
      intros p. rewrite Hattrs. cbn [last_touch].
      destruct (last_touch p evs); [done|]. apply Hattrs1.
    + destruct (IH _ Hwf Hrep) as [Hwf' Hattrs]. split; [done|].
      intros p. rewrite Hattrs. cbn [last_touch].
      destruct (last_touch p evs); [done|]. by destruct o.
Qed.

Lemma replay_strict_app (evs1 evs2 : list (op * outcome)) (d : dict) :
  replay_strict (evs1 ++ evs2) d =
  match replay_strict evs1 d with
  | Some d1 => replay_strict evs2 d1
  | None => None
  end.
Proof.
  revert d; induction evs1 as [|[o [|e]] evs1 IH]; intros d; simpl; [done| |apply IH].
  destruct (effect o d); [apply IH|done].
Qed.

Lemma last_touch_app (p : list string) (evs1 evs2 : list (op * outcome)) :
  last_touch p (evs1 ++ evs2) =
  match last_touch p evs2 with
  | Some r => Some r
  | None => last_touch p evs1
  end.
Proof.
  induction evs1 as [|c evs1 IH]; simpl.
  - by destruct (last_touch p evs2).
  - rewrite IH. by destruct (last_touch p evs2).
Qed.

Lemma last_touch_none (p : list string) (evs : list (op * outcome)) :
  Forall (fun c => touch p c = None) evs -> last_touch p evs = None.
Proof. induction 1 as [|c evs Hc _ IH]; simpl; [done|]. by rewrite IH. Qed.

End ContentFacts.

(** ** What the hook records, whatever its result *)

Module TraceFacts.
Import PyStr PyStrFacts Store StoreFacts RunFacts ContentFacts.

Section Traced.
Variable T : op -> Prop.

Lemma traced_ret {A} (a : A) : traced T (mret a : M A).
Proof. intros s. exists []. by rewrite app_nil_r. Qed.

Lemma traced_lift {A} (r : result A) : traced T (lift r).
Proof. intros s. exists []. by rewrite app_nil_r. Qed.

Lemma traced_gets {A} (f : run -> A) : traced T (gets f).
Proof. intros s. exists []. by rewrite app_nil_r. Qed.

Lemma traced_perform (o : op) : T o -> traced T (perform o).
Proof.
  intros Ho s. destruct (perform o s) as [[[]|x] s'] eqn:Hrun.
  - apply perform_ok in Hrun as (Heff & Hcalls & _).
    exists [(o, Done)]. simpl. rewrite Heff. by repeat constructor.
  - apply perform_raise in Hrun as (e & -> & Hst & Hcalls & _).
    exists [(o, Failed e)]. simpl. rewrite Hst. by repeat constructor.
Qed.

Lemma traced_bind {A B} (m : M A) (f : A -> M B) :
  traced T m -> (forall a, traced T (f a)) -> traced T (m ≫= f).
Proof.
  intros Hm Hf s. rewrite bind_run. specialize (Hm s).
  destruct (m s) as [[a|x] s1]; [|done].
  destruct Hm as (evs1 & Hcalls1 & Hst1 & HT1). simpl in *.
  specialize (Hf a s1). destruct (f a s1) as [r s'].
  destruct Hf as (evs2 & Hcalls2 & Hst2 & HT2). simpl in *.
  exists (evs1 ++ evs2).
  split; [by rewrite Hcalls2, Hcalls1, <- app_assoc|].
  split; [by rewrite replay_strict_app, Hst1|].
  by apply Forall_app.
Qed.

Lemma traced_for_each {A} (l : list A) (body : A -> M unit) :
  (forall x, traced T (body x)) -> traced T (for_each l body).
Proof.
  intros Hbody. induction l as [|x l IH]; simpl.
  - apply traced_ret.
  - by apply traced_bind.
Qed.

End Traced.

Lemma traced_save_best_k (self : NeptuneLogger) (cb : ModelCheckpoint) (keys : list string)
    (fn : gset string) :
  traced (hook_op self cb) (save_best_k cb (checkpoints_namespace self) keys fn).
Proof.
  revert fn; induction keys as [|key keys IH]; intros fn; simpl.
  - apply traced_ret.
  - apply traced_bind; [apply traced_lift|]. intros name.
    apply traced_bind; [|auto]. apply traced_perform. simpl. eauto.
Qed.

Lemma traced_drop_old (self : NeptuneLogger) (cb : ModelCheckpoint) (fn : gset string) :
  traced (hook_op self cb) (drop_old (checkpoints_namespace self) fn).
Proof.
  apply traced_bind.
  { apply traced_bind; [by apply traced_perform|]. intros _. apply traced_gets. }
  intros [|]; [|apply traced_ret].
  apply traced_bind.
  { apply traced_bind; [by apply traced_perform|]. intros _. apply traced_gets. }
  intros v. apply traced_bind; [apply traced_lift|]. intros names.
  apply traced_for_each. intros f. apply traced_perform. simpl. eauto.
Qed.

Lemma traced_log_best (self : NeptuneLogger) (cb : ModelCheckpoint) :
  traced (hook_op self cb) (log_best self cb).
Proof.
  unfold log_best. apply traced_bind.
  - destruct (truthy (best_model_path cb)) eqn:Hp; [|apply traced_ret].
    apply traced_perform. simpl. unfold best_model_paths. rewrite Hp.
    apply elem_of_app. left. left.
  - intros _. destruct (best_model_score cb) as [x|] eqn:Hx; [|apply traced_ret].
    destruct (score_truthy (Some x)) eqn:Hs; [|apply traced_ret].
    apply traced_perform. simpl. unfold best_model_paths. rewrite Hx, Hs.
    apply elem_of_app. right. left.
Qed.

Lemma traced_after_save_checkpoint (self : NeptuneLogger) (cb : ModelCheckpoint) :
  traced (hook_op self cb) (after_save_checkpoint self cb).
Proof.
  unfold after_save_checkpoint.
  destruct (_log_model_checkpoints self); simpl; [|apply traced_ret].
  fold (checkpoints_namespace self).
  apply traced_bind.
  { unfold save_last. destruct (truthy _); [|apply traced_ret].
    apply traced_bind; [apply traced_lift|]. intros name.
    apply traced_bind; [|intros _; apply traced_ret].
    apply traced_perform. simpl. eauto. }
  intros fn. apply traced_bind; [apply traced_save_best_k|].
  intros fn'. apply traced_bind; [apply traced_drop_old|].
  intros _. apply traced_log_best.
Qed.

(** The paths of the best-model attributes are not below the checkpoints
    namespace, and differ from each other. *)
Lemma best_path_cases (self : NeptuneLogger) (cb : ModelCheckpoint) (path : string) :
  path ∈ best_model_paths self cb ->
  split path = prefix_keys self ++ ["model"; "best_model_path"]
  \/ split path = prefix_keys self ++ ["model"; "best_model_score"].
Proof.
  unfold best_model_paths. intros [Hin|Hin]%elem_of_app.
  - destruct (truthy _); [|by apply elem_of_nil in Hin].
    apply list_elem_of_singleton in Hin as ->. left. by rewrite split_construct.
  - destruct (score_truthy _); [|by apply elem_of_nil in Hin].
    apply list_elem_of_singleton in Hin as ->. right. by rewrite split_construct.
Qed.


(** An operation of the hook touches only paths below the checkpoints
    namespace and the paths of the best-model attributes. *)
Lemma hook_op_touch (self : NeptuneLogger) (cb : ModelCheckpoint) (p : list string)
    (c : op * outcome) :
  hook_op self cb c.1 ->
  (forall name, p <> split (checkpoints_namespace self +:+ "/" +:+ name)) ->
  (forall path, path ∈ best_model_paths self cb -> p <> split path) ->
  touch p c = None.
Proof.
  destruct c as [[path l|path a|path| |] [|e]]; simpl; try done.
  - intros [name ->] Hns _. rewrite bool_decide_false; [done|]. intros <-. by apply (Hns name).
  - intros Hin _ Hbest. rewrite bool_decide_false; [done|]. intros <-. by apply (Hbest path).
  - intros [name ->] Hns _. rewrite bool_decide_false; [done|]. intros <-. by apply (Hns name).
Qed.

End TraceFacts.

(** ** The hook and the rest of the run *)

Import ContentFacts TraceFacts.

(** X1: whatever the result of the call (it returns or raises, the logging
    is enabled or not), every attribute of the run that is neither below
    the checkpoints namespace nor one of the best-model attributes the call
    assigns is after the call what it was before: same presence, same
    content. *)
Theorem hook_leaves_the_rest_alone
    (self : NeptuneLogger) (cb : ModelCheckpoint) (s : run) (p : list string) :
  wf_dict (structure s) = true ->
  (forall name, p <> split (checkpoints_namespace self +:+ "/" +:+ name)) ->
  (forall path, path ∈ best_model_paths self cb -> p <> split path) ->
  attr_at p (structure (after_save_checkpoint self cb s).2) = attr_at p (structure s).
Proof.
  intros Hwf Hns Hbest.
  destruct (traced_after_save_checkpoint self cb s) as (evs & _ & Hrep & Hops).
  destruct (replay_strict_attrs evs _ _ Hwf Hrep) as [_ Hattrs].
  rewrite Hattrs, last_touch_none; [done|].
  eapply Forall_impl; [exact Hops|]. intros c Hc. by apply (hook_op_touch self cb).
Qed.

Lemma hook_leaves_the_rest_alone_witness :
  attr_at ["training"; "hyperparams"; "lr"]
    (structure (after_save_checkpoint logger_on scenario_A run_with_other_data).2)
  = attr_at ["training"; "hyperparams"; "lr"] (structure run_with_other_data).
Proof.
  apply (hook_leaves_the_rest_alone logger_on scenario_A run_with_other_data).
  - reflexivity.
  - intros name. rewrite split_checkpoint_path. simpl. discriminate.
  - intros path Hin.
    destruct (best_path_cases logger_on scenario_A path Hin) as [Hp|Hp];
      rewrite Hp; simpl; discriminate.
Defined.









(** ** What a returning call has written and deleted *)

Module ReturnFacts.
Import PyStr PyStrFacts PyDict PyDictFacts Store StoreFacts EnumFacts RunFacts.




Lemma checkpoint_path_not_beside (self : NeptuneLogger) (key name : string) :
  key <> "checkpoints" -> slash_free key = true ->
  split (checkpoints_namespace self +:+ "/" +:+ name)
  <> split (_construct_path_with_prefix self ["model/" +:+ key]).
Proof.
  intros Hkey Hfree Heq.
  rewrite split_checkpoint_path, split_construct in Heq.
  apply app_inv_head in Heq.
  change ("model/" +:+ key) with ("model" +:+ "/" +:+ key) in Heq.
  rewrite split_app_slash, (split_segment key Hfree) in Heq.
  simpl in Heq. congruence.
Qed.


Lemma last_touch_uploads_none (self : NeptuneLogger) (cb : ModelCheckpoint)
    (keys : list string) (p : list string) :
  (forall name, p <> split (checkpoints_namespace self +:+ "/" +:+ name)) ->
  last_touch p (map (fun k => (upload_of self cb k, Done)) keys) = None.
Proof.
  intros Hp. apply ContentFacts.last_touch_none, list.Forall_forall.
  intros c (k & -> & _)%list_elem_of_fmap. unfold upload_of. cbn [touch].
  rewrite bool_decide_false; [done|]. intros <-. by apply (Hp (short_name cb k)).
Qed.

Lemma last_touch_deletes_none (ns : string) (dropped : list string) (p : list string) :
  (forall f, f ∈ dropped -> p <> split (ns +:+ "/" +:+ f)) ->
  last_touch p (map (fun f => (Delete (ns +:+ "/" +:+ f), Done)) dropped) = None.
Proof.
  intros Hp. apply ContentFacts.last_touch_none, list.Forall_forall.
  intros c (f & -> & Hf)%list_elem_of_fmap. cbn [touch].
  rewrite bool_decide_false; [done|]. intros <-. by apply (Hp f).
Qed.

Lemma last_touch_enum (p : list string) (ns : string) (enum : list (op * outcome)) :
  enum = [] \/ enum = [(GetStructure, Done)] ->
  last_touch p ((Exists ns, Done) :: enum) = None.
Proof. by intros [-> | ->]. Qed.


(** The record of a call that returned replays to the tree it left. *)
Lemma returned_call_replay (self : NeptuneLogger) (cb : ModelCheckpoint) (s s' : run) :
  _log_model_checkpoints self = true ->
  wf_dict (structure s) = true ->
  after_save_checkpoint self cb s = (Ok tt, s') ->
  Forall (fun p => valid_path cb p = true) (supplied_paths cb)
  /\ exists enum dropped,
       replay_strict
         (map (fun p => (upload_of self cb p, Done)) (supplied_paths cb)
          ++ ((Exists (checkpoints_namespace self), Done) :: enum)
          ++ map (fun f => (Delete (checkpoints_namespace self +:+ "/" +:+ f), Done)) dropped
          ++ best_model_calls self cb)
         (structure s) = Some (structure s')
       /\ (enum = [] \/ enum = [(GetStructure, Done)])
       /\ forall f, f ∈ dropped -> f ∉ desired_names cb.
Proof.
  intros Hlog Hwf Hrun.
  destruct (synchronized self cb s s' Hlog Hwf Hrun)
    as (_ & Hvalid & _ & enum & dropped & Hcalls & Henum & Hdropped).
  split; [done|]. exists enum, dropped. split; [|by split].
  destruct (TraceFacts.traced_after_save_checkpoint self cb s) as (evs & Hcalls' & Hrep & _).
  rewrite Hrun in Hcalls', Hrep. simpl in Hcalls', Hrep.
  rewrite Hcalls in Hcalls'. apply app_inv_head in Hcalls'. subst evs.
  exact Hrep.
Qed.





End ReturnFacts.

Import ReturnFacts.



(** X6: when a call with checkpoint logging enabled returns, the
    best_model_path attribute holds the callback's best model path if that
    is not empty and is what it was before if it is empty; the
    best_model_score attribute holds the best score if there is one and it
    is not zero, and is what it was before if the score is absent or zero:
    a score of zero is never written, and neither attribute is ever
    cleared. *)
Theorem best_model_attributes_after_call
    (self : NeptuneLogger) (cb : ModelCheckpoint) (s s' : run) :
  _log_model_checkpoints self = true ->
  wf_dict (structure s) = true ->
  after_save_checkpoint self cb s = (Ok tt, s') ->
  attr_at (split (_construct_path_with_prefix self ["model/best_model_path"])) (structure s')
  = (if truthy (best_model_path cb) then Some (StringAttr (best_model_path cb))
     else attr_at (split (_construct_path_with_prefix self ["model/best_model_path"]))
            (structure s))
  /\ attr_at (split (_construct_path_with_prefix self ["model/best_model_score"])) (structure s')
     = match best_model_score cb with
       | Some x =>
           if Z.eqb (QArith_base.Qnum x) 0
           then attr_at (split (_construct_path_with_prefix self ["model/best_model_score"]))
                  (structure s)
           else Some (FloatAttr x)
       | None =>
           attr_at (split (_construct_path_with_prefix self ["model/best_model_score"]))
             (structure s)
       end.
Proof.
  intros Hlog Hwf Hrun.
  destruct (returned_call_replay self cb s s' Hlog Hwf Hrun)
    as (Hvalid & enum & dropped & Hrep & Henum & Hdropped).
  destruct (replay_strict_attrs _ _ _ Hwf Hrep) as [_ Hattrs].
  assert (split (_construct_path_with_prefix self ["model/best_model_path"])
          <> split (_construct_path_with_prefix self ["model/best_model_score"])) as Hne.
  { rewrite !split_construct. intros Heq. by apply app_inv_head in Heq. }
  split.
  - rewrite Hattrs, !last_touch_app.
    rewrite (last_touch_deletes_none _ dropped), last_touch_enum, last_touch_uploads_none;
      [|intros name Heq; by apply (checkpoint_path_not_beside self "best_model_path" name)
       |done
       |intros f _ Heq; by apply (checkpoint_path_not_beside self "best_model_path" f)].
    unfold best_model_calls. rewrite last_touch_app.
    assert (last_touch (split (_construct_path_with_prefix self ["model/best_model_path"]))
              match best_model_score cb with
              | Some x =>
                  if score_truthy (Some x)
                  then [(Assign (_construct_path_with_prefix self ["model/best_model_score"])
                           (FloatAttr x), Done)]
                  else []
              | None => []
              end = None) as ->.
    { destruct (best_model_score cb) as [x|]; [|done].
      destruct (score_truthy (Some x)); [|done]. cbn [last_touch touch].
      rewrite bool_decide_false; [done|]. congruence. }
    destruct (truthy (best_model_path cb)); [|done]. cbn [last_touch touch].
    by rewrite bool_decide_true.
  - rewrite Hattrs, !last_touch_app.
    rewrite (last_touch_deletes_none _ dropped), last_touch_enum, last_touch_uploads_none;
      [|intros name Heq; by apply (checkpoint_path_not_beside self "best_model_score" name)
       |done
       |intros f _ Heq; by apply (checkpoint_path_not_beside self "best_model_score" f)].
    unfold best_model_calls. rewrite last_touch_app.
    destruct (best_model_score cb) as [x|].
    + unfold score_truthy. destruct (Z.eqb (QArith_base.Qnum x) 0); cbn [negb last_touch].
      * destruct (truthy (best_model_path cb)); [|done]. cbn [last_touch touch].
        by rewrite bool_decide_false.
      * cbn [touch]. by rewrite bool_decide_true.
    + cbn [last_touch]. destruct (truthy (best_model_path cb)); [|done].
      cbn [last_touch touch]. by rewrite bool_decide_false.
Qed.

Lemma best_model_attributes_after_call_witness :
  attr_at (split (_construct_path_with_prefix logger_on ["model/best_model_path"]))
    (structure (after_save_checkpoint logger_on zero_score run_with_other_data).2)
  = (if truthy (best_model_path zero_score) then Some (StringAttr (best_model_path zero_score))
     else attr_at (split (_construct_path_with_prefix logger_on ["model/best_model_path"]))
            (structure run_with_other_data))
  /\ attr_at (split (_construct_path_with_prefix logger_on ["model/best_model_score"]))
       (structure (after_save_checkpoint logger_on zero_score run_with_other_data).2)
     = match best_model_score zero_score with
       | Some x =>
           if Z.eqb (QArith_base.Qnum x) 0
           then attr_at (split (_construct_path_with_prefix logger_on ["model/best_model_score"]))
                  (structure run_with_other_data)
           else Some (FloatAttr x)
       | None =>
           attr_at (split (_construct_path_with_prefix logger_on ["model/best_model_score"]))
             (structure run_with_other_data)
       end.
Proof.
  apply (best_model_attributes_after_call logger_on zero_score run_with_other_data).
  - reflexivity.
  - reflexivity.
  - vm_compute. reflexivity.
Defined.

(** A best score of zero and an empty best path: the attribute of an
    earlier best path stays, no score is written. *)
Example zero_score_is_not_logged :
  let s' := (after_save_checkpoint logger_on zero_score run_with_other_data).2 in
  attr_at ["training"; "model"; "best_model_path"] (structure s')
  = Some (StringAttr "/ckpt/e1.pt")
  /\ attr_at ["training"; "model"; "best_model_score"] (structure s') = None
  /\ attr_at ["training"; "model"; "checkpoints"; "e3.pt"] (structure s')
     = Some (FileAttr "/ckpt/e3.pt")
  /\ attr_at ["training"; "model"; "checkpoints"; "e1.pt"] (structure s') = None.
Proof. by vm_compute. Qed.









(** ** The helpers on their own *)

(** X9: stripping undoes prefixing: for every checkpoint directory and every
    name, also an empty one or one with separators in it, the path made of
    the directory, the separator and the name is accepted by
    [_get_full_model_name] and gives back the name. *)
Theorem full_model_name_of_joined_path (cb : ModelCheckpoint) (name : string) :
  _get_full_model_name (dirpath cb +:+ "/" +:+ name) cb = Ok name.
Proof.
  unfold _get_full_model_name.
  rewrite <- (append_assoc (dirpath cb) "/" name).
  by rewrite startswith_app, slice_from_app.
Qed.

(** X10: a path that continues the checkpoint directory with anything but
    the separator is refused with the invalid-path error: a sibling
    directory whose name starts with the directory's name is not taken for
    the directory, and when the directory is written with a trailing
    separator the files directly inside it (the directory, then the name)
    are refused as well. *)
Theorem continuation_without_separator_is_rejected (cb : ModelCheckpoint) (rest : string) :
  startswith rest "/" = false ->
  _get_full_model_name (dirpath cb +:+ rest) cb
  = Raise (ValueError (invalid_path_message cb (dirpath cb +:+ rest))).
Proof.
  intros Hrest. rewrite get_full_model_name_eq. unfold valid_path.
  replace (startswith (dirpath cb +:+ rest) (dirpath cb +:+ "/")) with false; [done|].
  by rewrite startswith_cancel.
Qed.

Lemma continuation_without_separator_is_rejected_witness :
  _get_full_model_name (dirpath trailing_separator +:+ "e5.pt") trailing_separator
  = Raise (ValueError
             (invalid_path_message trailing_separator (dirpath trailing_separator +:+ "e5.pt"))).
Proof.
  apply (continuation_without_separator_is_rejected trailing_separator "e5.pt").
  reflexivity.
Defined.

(** The last checkpoint of a directory written with a trailing separator:
    the call raises before it performs anything; and a sibling directory. *)
Example trailing_separator_call :
  after_save_checkpoint logger_on trailing_separator fresh_run
  = (Raise (ValueError "/ckpt/e5.pt was expected to start with /ckpt//."), fresh_run)
  /\ _get_full_model_name "/ckpt2/e5.pt" scenario_A
     = Raise (ValueError "/ckpt2/e5.pt was expected to start with /ckpt/.").
Proof. by vm_compute. Qed.

Lemma split_join_keys (keys : list string) :
  keys <> [] -> split (join keys) = concat (map split keys).
Proof.
  induction keys as [|k keys IH]; [done|]. intros _.
  destruct keys as [|k' keys].
  - simpl. by rewrite app_nil_r.
  - change (join (k :: k' :: keys)) with (k +:+ "/" +:+ join (k' :: keys)).
    rewrite split_app_slash, IH by done. done.
Qed.

(** X11: the path built from a prefix and keys addresses the segments of
    the prefix followed by the segments of each key in turn; with an empty
    prefix it addresses the segments of the keys alone, without a leading
    empty segment. *)
Theorem construct_path_segments (self : NeptuneLogger) (keys : list string) :
  keys <> [] ->
  split (_construct_path_with_prefix self keys)
  = prefix_keys self ++ concat (map split keys).
Proof.
  intros Hkeys. unfold _construct_path_with_prefix, prefix_keys.
  destruct (truthy (_prefix self)).
  - by rewrite split_join_keys.
  - by rewrite split_join_keys.
Qed.

Lemma construct_path_segments_witness :
  split (_construct_path_with_prefix logger_on ["model/checkpoints"; "epoch=1/e1.pt"])
  = prefix_keys logger_on ++ concat (map split ["model/checkpoints"; "epoch=1/e1.pt"]).
Proof.
  apply (construct_path_segments logger_on ["model/checkpoints"; "epoch=1/e1.pt"]).
  discriminate.
Defined.

(** X12: the paths the generator yields below a path in build are the
    paths it yields at the top, each behind that path and a separator, in
    the same order. *)
Theorem dict_paths_below (d : dict) (p : string) :
  _dict_paths d (Some p) = map (fun x => p +:+ "/" +:+ x) (_dict_paths d None).
Proof.
  revert p.
  induction d as [a|d IH| |k v IHv d IHd]
    using dict_value_ind
    with (P := fun v => match v with
                        | Attr _ => True
                        | Dict d => forall p, _dict_paths d (Some p)
                                      = map (fun x => p +:+ "/" +:+ x) (_dict_paths d None)
                        end);
    try done.
  intros p. cbn [_dict_paths]. rewrite map_app, <- IHd. f_equal.
  destruct v as [a|sub]; [done|].
  rewrite (IHv (p +:+ "/" +:+ k)), (IHv k), map_map.
  apply map_ext. intros x. by rewrite !append_assoc.
Qed.

(** X13: the generator yields one path per attribute of the structure,
    whatever the keys are: a namespace without attributes, at any depth,
    contributes nothing. *)
Theorem dict_paths_one_per_attribute (d : dict) (path_in_build : option string) :
  length (_dict_paths d path_in_build) = count_attrs d.
Proof.
  revert path_in_build.
  induction d as [a|d IH| |k v IHv d IHd]
    using dict_value_ind
    with (P := fun v => match v with
                        | Attr _ => True
                        | Dict d => forall pb, length (_dict_paths d pb) = count_attrs d
                        end);
    try done.
  intros pb. cbn [_dict_paths count_attrs]. rewrite length_app, IHd. f_equal.
  destruct v as [a|sub]; [done|]. apply IHv.
Qed.

Lemma reduce_getitem_fails (ks : list string) (v : value) :
  lookup_path ks v = None ->
  (exists k, k ∈ ks /\ reduce_getitem v ks = Raise (KeyError k))
  \/ reduce_getitem v ks = Raise TypeError.
Proof.
  revert v; induction ks as [|k ks IH]; intros v; [done|]. simpl.
  destruct v as [a|d]; simpl; [by right|].
  destruct (PyDict.get k d) as [v'|].
  - intros [(k' & Hin & Hk')|Ht]%IH; [left|by right].
    exists k'. split; [by right|done].
  - intros _. left. exists k. split; [left|done].
Qed.

(** X14: the enumeration returns names exactly when the namespace path
    leads to a namespace of the structure. When the path leads to an
    attribute it raises the attribute error; when it leads nowhere it raises
    the key error of one of its segments, or the type error of stepping
    into an attribute on the way. *)
Theorem uploaded_names_errors (exp_structure : value) (namespace : string) :
  match lookup_path (split namespace) exp_structure with
  | Some (Dict sub) =>
      _get_full_model_names_from_exp_structure exp_structure namespace
      = Ok (list_to_set (_dict_paths sub None))
  | Some (Attr _) =>
      _get_full_model_names_from_exp_structure exp_structure namespace = Raise AttributeError
  | None =>
      (exists k, k ∈ split namespace
                 /\ _get_full_model_names_from_exp_structure exp_structure namespace
                    = Raise (KeyError k))
      \/ _get_full_model_names_from_exp_structure exp_structure namespace = Raise TypeError
  end.
Proof.
  unfold _get_full_model_names_from_exp_structure.
  destruct (lookup_path (split namespace) exp_structure) as [v|] eqn:Hl.
  - apply EnumFacts.reduce_getitem_lookup in Hl. rewrite Hl. by destruct v.
  - destruct (reduce_getitem_fails _ _ Hl) as [(k & Hin & ->)| ->]; [left; eauto|by right].
Qed.

(** A missing segment and an attribute on the way. *)
Example uploaded_names_error_cases :
  _get_full_model_names_from_exp_structure (Dict (structure run_e1_e2_e3)) "training/metrics"
  = Raise (KeyError "metrics")
  /\ _get_full_model_names_from_exp_structure (Dict (structure run_with_other_data))
       "sys/name/first" = Raise TypeError
  /\ _get_full_model_names_from_exp_structure (Dict (structure run_with_other_data))
       "sys/name" = Raise AttributeError.
Proof. by vm_compute. Qed.

(** ** The constructor's argument check *)

Lemma py_in_spec (k : string) (ks : list string) : py_in k ks = true <-> k ∈ ks.
Proof.
  unfold py_in. rewrite existsb_exists. split.
  - intros (x & Hin & ->%String.eqb_eq). by apply list_elem_of_In.
  - intros Hin. exists k. split; [by apply list_elem_of_In|apply String.eqb_refl].
Qed.

Lemma nonempty_filter_false {A} (f : A -> bool) (l : list A) :
  nonempty (List.filter f l) = false <-> forall x, x ∈ l -> f x = false.
Proof.
  induction l as [|y l IH]; simpl.
  - split; [by intros _ x ?%elem_of_nil|done].
  - destruct (f y) eqn:Hy; simpl.
    + split; [done|]. intros H. specialize (H y (list_elem_of_here _ _)). congruence.
    + rewrite IH. split.
      * intros H x [-> |?]%elem_of_cons; auto.
      * intros H x Hx. apply H. by right.
Qed.

(** X15: the arguments of the constructor are accepted exactly when none
    of the keyword names is one of the deprecated ones and either no run is
    passed, or what is passed is a run and nothing else is passed with it:
    no api key, no project, no name and no keyword argument. *)
Theorem verify_input_arguments_accepts (api_key project name : option string)
    (run : option run_argument) (neptune_run_kwargs : list string) :
  _verify_input_arguments api_key project name run neptune_run_kwargs = Ok tt
  <-> (forall k, k ∈ neptune_run_kwargs ->
         (k ∉ _LEGACY_NEPTUNE_INIT_KWARGS) /\ (k ∉ _LEGACY_NEPTUNE_LOGGER_KWARGS))
      /\ (run = None
          \/ (run = Some RunInstance /\ api_key = None /\ project = None /\ name = None
              /\ neptune_run_kwargs = [])).
Proof.
  unfold _verify_input_arguments.
  destruct (nonempty (List.filter _ neptune_run_kwargs)) eqn:Hinit.
  { split; [done|]. intros [Hk _].
    assert (nonempty (List.filter
              (fun k => py_in k _LEGACY_NEPTUNE_INIT_KWARGS) neptune_run_kwargs) = false)
      as Hf; [|by rewrite Hf in Hinit].
    apply nonempty_filter_false. intros k Hin. apply not_true_is_false.
    intros Hp%py_in_spec. by destruct (Hk k Hin). }
  destruct (nonempty (List.filter (fun k => py_in k _LEGACY_NEPTUNE_LOGGER_KWARGS) _))
    eqn:Hlogger.
  { split; [done|]. intros [Hk _].
    assert (nonempty (List.filter
              (fun k => py_in k _LEGACY_NEPTUNE_LOGGER_KWARGS) neptune_run_kwargs) = false)
      as Hf; [|by rewrite Hf in Hlogger].
    apply nonempty_filter_false. intros k Hin. apply not_true_is_false.
    intros Hp%py_in_spec. by destruct (Hk k Hin). }
  assert (forall k, k ∈ neptune_run_kwargs ->
            (k ∉ _LEGACY_NEPTUNE_INIT_KWARGS) /\ (k ∉ _LEGACY_NEPTUNE_LOGGER_KWARGS)) as Hk.
  { intros k Hin. split; intros Hp%py_in_spec.
    - rewrite nonempty_filter_false in Hinit. by rewrite (Hinit k Hin) in Hp.
    - rewrite nonempty_filter_false in Hlogger. by rewrite (Hlogger k Hin) in Hp. }
  destruct run as [[|]|]; simpl.
  - destruct api_key, project, name, neptune_run_kwargs; simpl;
      split; try done; try (intros [_ [?|(_ & ? & ? & ? & ?)]]; done).
    intros _. split; [done|]. right. done.
  - split; [done|]. by intros [_ [?|(? & _)]].
  - split; [|done]. intros _. split; [done|by left].
Qed.

(** The four ways of being refused, in the order of the checks. *)
Example verify_input_arguments_refusals :
  _verify_input_arguments None None None (Some OtherObject) ["offline_mode"; "close_after_fit"]
  = Raise (ValueError (deprecated_kwargs_message ["offline_mode"]))
  /\ _verify_input_arguments None None None (Some OtherObject) ["tags"; "close_after_fit"]
     = Raise (ValueError (deprecated_kwargs_message ["close_after_fit"]))
  /\ _verify_input_arguments None (Some "ws/project") None (Some OtherObject) ["tags"]
     = Raise (ValueError run_type_message)
  /\ _verify_input_arguments None None None (Some RunInstance) ["tags"]
     = Raise (ValueError redundant_arguments_message)
  /\ _verify_input_arguments None (Some "ws/project") None (Some RunInstance) []
     = Raise (ValueError redundant_arguments_message)
  /\ _verify_input_arguments (Some "key") (Some "ws/project") (Some "run") None ["tags"]
     = Ok tt
  /\ repr_names ["offline_mode"; "params"] = "['offline_mode', 'params']".
Proof. by vm_compute. Qed.

(** ** The end of the run *)

(** X16: [finalize] with an empty status performs nothing; with a status,
    when it returns, the attribute at the prefixed status path holds the
    status and every other attribute of the run, the checkpoints among
    them, is what it was. *)
Theorem finalize_writes_the_status (self : NeptuneLogger) (status : string) (s s' : run) :
  wf_dict (structure s) = true ->
  finalize self status s = (Ok tt, s') ->
  (truthy status = false -> s' = s)
  /\ forall p,
       attr_at p (structure s')
       = if truthy status && bool_decide (p = split (_construct_path_with_prefix self ["status"]))
         then Some (StringAttr status)
         else attr_at p (structure s).
Proof.
  intros Hwf Hrun. unfold finalize in Hrun.
  destruct (truthy status).
  - split; [done|]. unfold assign in Hrun.
    apply perform_ok in Hrun as (Heff & _). simpl in Heff.
    intros p. by rewrite (set_path_attrs _ _ _ _ Heff p).
  - injection Hrun as <-. by split.
Qed.

Lemma finalize_writes_the_status_witness :
  (truthy "success" = false ->
   (finalize logger_on "success" run_with_other_data).2 = run_with_other_data)
  /\ forall p,
       attr_at p (structure (finalize logger_on "success" run_with_other_data).2)
       = if truthy "success"
            && bool_decide (p = split (_construct_path_with_prefix logger_on ["status"]))
         then Some (StringAttr "success")
         else attr_at p (structure run_with_other_data).
Proof.
  apply (finalize_writes_the_status logger_on "success" run_with_other_data).
  - reflexivity.
  - vm_compute. reflexivity.
Defined.
